(** * Overlapping wave function collapse: pattern extraction and decoding

    A shallow embedding of [src/overlapping_wfc.hpp] (class
    [OverlappingWFC]: [init], [clear], [get_output]) and the properties of
    its pattern table, fingerprints, propagator and decoder.

    Conventions.  A [size_t] is a [Z] in [[0, 2^64)] and every [size_t]
    operation of the source is written with its wrap-around ([Size.add],
    [Size.sub], [Size.mul]).  A [uint8_t] is a [Z] in [[0, 256)], a cast to
    it is [u8].  Vectors are lists; an index outside a vector, an integer
    division by zero and a loop that never ends produce no result
    ([None]).  Loops that the source bounds by a counter are structural
    recursions on the number of remaining iterations; the one unbounded
    [while] of the source takes fuel. *)

From stdpp Require Import base numbers option list strings gmap.

Local Open Scope Z_scope.

(** ** Machine integers *)

Module Size.
Definition modulus : Z := 2 ^ 64.
Definition wrap (z : Z) : Z := z mod modulus.
Definition add (a b : Z) : Z := wrap (a + b).
Definition sub (a b : Z) : Z := wrap (a - b).
Definition mul (a b : Z) : Z := wrap (a * b).
End Size.

Definition u8 (z : Z) : Z := z mod 256.

(** ** Fingerprints (the encoding loop of [init], lines 130-132)

    [size_t ind = 0, power = 1;
     for (int i = 0; i < p.size(); i++, power *= C)
         ind += p[p.size() - 1 - i] * power;] *)

Fixpoint fingerprint_loop (C : Z) (p : list Z) (n i : nat) (ind power : Z) : Z :=
  match n with
  | O => ind
  | S n' =>
      fingerprint_loop C p n' (S i)
        (Size.add ind (Size.mul (nth (length p - 1 - i) p 0) power))
        (Size.mul power C)
  end.

Definition fingerprint (C : Z) (p : list Z) : Z :=
  fingerprint_loop C p (length p) 0 0 1.

(** [size_t W = 1; for (int i = 0; i < N * N; i++) W *= C;] *)

Fixpoint power_loop (C : Z) (n : nat) (W : Z) : Z :=
  match n with
  | O => W
  | S n' => power_loop C n' (Size.mul W C)
  end.

Definition compute_W (N C : Z) : Z := power_loop C (Z.to_nat (N * N)) 1.

(** ** [patternFromIndex] (lines 141-152)

    The inner [while (residue >= power) { residue -= power; count++; }]:
    every test of the condition uses one unit of fuel. *)

Fixpoint count_loop (fuel : nat) (residue power count : Z) : option (Z * Z) :=
  match fuel with
  | O => None
  | S fuel' =>
      if decide (power ≤ residue)
      then count_loop fuel' (Size.sub residue power) power (Size.add count 1)
      else Some (residue, count)
  end.

(** The outer [for (size_t i = 0; i < result.size(); i++)]; [n] counts the
    iterations that remain. *)

Fixpoint patternFromIndex_loop (fuel : nat) (C : Z) (n i : nat)
    (residue power : Z) (result : list Z) : option (list Z) :=
  match n with
  | O => Some result
  | S n' =>
      if decide (C = 0) then None
      else
        let power' := power / C in
        match count_loop fuel residue power' 0 with
        | None => None
        | Some (residue', count) =>
            patternFromIndex_loop fuel C n' (S i) residue' power'
              (<[i := u8 count]> result)
        end
  end.

Definition patternFromIndex (fuel : nat) (C W ind : Z) (result : list Z)
    : option (list Z) :=
  patternFromIndex_loop fuel C (length result) 0 ind W result.

(** ** The value of a digit sequence

    [digits_value C p] is the sum of [p_i * C^(n-1-i)] over the [n] digits
    of [p], most significant first. *)

Fixpoint digits_value (C : Z) (p : list Z) : Z :=
  match p with
  | [] => 0
  | d :: p' => d * C ^ Z.of_nat (length p') + digits_value C p'
  end.

(** A palette index is a [uint8_t] below the palette size. *)
Definition is_digit (C d : Z) : Prop := 0 ≤ d < C ∧ d < 256.

(** A window shape: [N * N] palette indices. *)
Definition is_pattern (N C : Z) (p : list Z) : Prop :=
  length p = Z.to_nat (N * N) ∧ Forall (is_digit C) p.

(** ** Options and tables *)

(** [struct OverlappingWFCOptions]; the [heuristic] field only reaches the
    base class and is left out. *)
Record OverlappingWFCOptions := {
  periodic_input : bool;
  periodic_output : bool;
  i_W : Z;
  i_H : Z;
  o_W : Z;
  o_H : Z;
  symmetry : Z;
  pattern_size : Z;
  ground : bool
}.

(** [get_wave_height] and [get_wave_width] (lines 43-52); the result is
    an [unsigned]. *)
Definition get_wave_height (opts : OverlappingWFCOptions) : Z :=
  (if periodic_output opts then o_H opts
   else Size.wrap (o_H opts - pattern_size opts + 1)) mod 2 ^ 32.

Definition get_wave_width (opts : OverlappingWFCOptions) : Z :=
  (if periodic_output opts then o_W opts
   else Size.wrap (o_W opts - pattern_size opts + 1)) mod 2 ^ 32.

(** What [init] writes: the members [colors] and [patterns] of the class
    and [P], [weights] and [propagator] of its base. *)
Record tables := {
  colors : list Z;
  P : Z;
  patterns : list (list Z);
  weights : list Z;
  propagator : list (list (list Z))
}.

(** A vector read [v[i]]: no result outside the vector. *)
Definition at_index {A : Type} (v : list A) (i : Z) : option A :=
  if decide (0 ≤ i) then v !! Z.to_nat i else None.

(** ** Helpers of utils/helper.hpp *)

(** Modelled from the spec: [ords] is declared in utils/helper.hpp, which
    is not among the sources.  Section 3: the palette is "an ordered
    sequence of distinct colors encountered in the exemplar, in
    first-appearance order. Each exemplar pixel is re-encoded as its
    palette index"; the call here asks for [uint8_t] indices. *)
Definition ords_step (st : list Z * list Z) (c : Z) : list Z * list Z :=
  let '(sample, palette) := st in
  match list_find (λ c', c' = c) palette with
  | Some (i, _) => (sample ++ [u8 (Z.of_nat i)], palette)
  | None => (sample ++ [u8 (Z.of_nat (length palette))], palette ++ [c])
  end.

(** Modelled from the spec: [ords] (see [ords_step]) is one pass over the
    exemplar from an empty palette; it returns the re-encoded pixels and
    the palette. *)
Definition ords (data : list Z) : list Z * list Z :=
  foldl ords_step ([], []) data.

(** Modelled from the spec: [Helper::pattern] is not among the sources.
    Section 3: a pattern is "a length-N² sequence of palette indices,
    row-major, representing one N×N window": entry [x + y * N] is
    [f x y]. *)
Definition pattern_of (N : Z) (f : Z → Z → Z) : list Z :=
  (λ k, f (k mod N) (k / N)) <$> seqZ 0 (N * N).

(** Modelled from the spec: [Helper::rotated] is not among the sources.
    Section 4.1 names it as the quarter turn of the dihedral group of the
    square ("rotate90"). *)
Definition rotated (N : Z) (q : list Z) : list Z :=
  pattern_of N (λ x y, nth (Z.to_nat (N - 1 - y + x * N)) q 0).

(** Modelled from the spec: [Helper::reflected] is not among the sources.
    Section 4.1 names it as the reflection of the dihedral group of the
    square ("reflect"). *)
Definition reflected (N : Z) (q : list Z) : list Z :=
  pattern_of N (λ x y, nth (Z.to_nat (N - 1 - x + y * N)) q 0).

(** Modelled from the spec: [Helper::squareSymmetries] is not among the
    sources.  Section 4.1: "The symmetry option selects a prefix of the
    canonical variant list: identity, rotate90, rotate180, rotate270,
    reflect, reflect·rotate90, reflect·rotate180, reflect·rotate270". *)
Definition squareSymmetries (N : Z) (q : list Z) (subgroup : Z) : list (list Z) :=
  let r1 := rotated N q in
  let r2 := rotated N r1 in
  let r3 := rotated N r2 in
  take (Z.to_nat subgroup)
    [q; r1; r2; r3; reflected N q; reflected N r1; reflected N r2; reflected N r3].

(** ** [init]: the scan of the exemplar (lines 103-137) *)

(** [if (!(wtable[ind]++)) ordering.push_back(ind);]  Reading
    [wtable[ind]] creates the entry with count 0 when it is absent. *)
Definition record_fingerprint (st : gmap Z Z * list Z) (ind : Z)
    : gmap Z Z * list Z :=
  let '(wtable, ordering) := st in
  let old := default 0 (wtable !! ind) in
  (<[ind := Size.add old 1]> wtable,
   if decide (old = 0) then ordering ++ [ind] else ordering).

Definition origin_xmax (opts : OverlappingWFCOptions) (N : Z) : Z :=
  if periodic_input opts then i_W opts else Size.wrap (i_W opts - N + 1).

Definition origin_ymax (opts : OverlappingWFCOptions) (N : Z) : Z :=
  if periodic_input opts then i_H opts else Size.wrap (i_H opts - N + 1).

(** A counted loop whose body may have no result. *)
Fixpoint for_each {S : Type} (body : S → Z → option S) (s : S) (range : list Z)
    : option S :=
  match range with
  | [] => Some s
  | i :: range' => s' ← body s i; for_each body s' range'
  end.

(** The read [sample[(x + dx) % options.i_W + ((y + dy) % options.i_H) *
    options.i_W]] of lines 114-115: no result when a modulus is zero or
    when the index is outside [sample]. *)
Definition sample_at (opts : OverlappingWFCOptions) (sample : list Z)
    (x y dx dy : Z) : option Z :=
  if decide (i_W opts = 0) then None
  else if decide (i_H opts = 0) then None
  else at_index sample
         (Size.add (Size.add x dx mod i_W opts)
                   (Size.mul (Size.add y dy mod i_H opts) (i_W opts))).

(** Modelled from the spec: [Helper::pattern] (see [pattern_of]) filling
    the window from a read that may have no result: entry [x + y * N] is
    the result of [f x y], and there is no window when one of the reads
    has none. *)
Definition pattern_of_reads (N : Z) (f : Z → Z → option Z) : option (list Z) :=
  mapM (λ k, f (k mod N) (k / N)) (seqZ 0 (N * N)).

(** The window [temp] at origin [(x, y)] (lines 113-116). *)
Definition window (opts : OverlappingWFCOptions) (N : Z) (sample : list Z)
    (x y : Z) : option (list Z) :=
  pattern_of_reads N (sample_at opts sample x y).

(** The body of the two loops over the origins (lines 113-135): the
    window, its variants, and the fingerprint of each recorded in turn. *)
Definition scan_origin (opts : OverlappingWFCOptions) (N C : Z) (sample : list Z)
    (y : Z) (st : gmap Z Z * list Z) (x : Z) : option (gmap Z Z * list Z) :=
  temp ← window opts N sample x y;
  Some (foldl (λ st p, record_fingerprint st (fingerprint C p)) st
              (squareSymmetries N temp (u8 (symmetry opts)))).

Definition scan (opts : OverlappingWFCOptions) (N C : Z) (sample : list Z)
    : option (gmap Z Z * list Z) :=
  for_each (λ st y, for_each (scan_origin opts N C sample y) st
                             (seqZ 0 (origin_xmax opts N)))
           (∅, []) (seqZ 0 (origin_ymax opts N)).

(** The content of the window at origin [(x, y)] once each of its reads
    has a result: [window] is then [Some] of it. *)
Definition window_content (opts : OverlappingWFCOptions) (N : Z) (sample : list Z)
    (x y : Z) : list Z :=
  pattern_of N (λ dx dy, default 0 (sample_at opts sample x y dx dy)).

(** The variants enumerated at one origin (lines 118-127). *)
Definition variants (opts : OverlappingWFCOptions) (N : Z) (sample : list Z)
    (x y : Z) : list (list Z) :=
  squareSymmetries N (window_content opts N sample x y) (u8 (symmetry opts)).

(** The (origin, variant) pairs in the order in which the scan meets
    them, and their fingerprints. *)
Definition enumerated (opts : OverlappingWFCOptions) (N : Z) (sample : list Z)
    : list (list Z) :=
  y ← seqZ 0 (origin_ymax opts N);
  x ← seqZ 0 (origin_xmax opts N);
  variants opts N sample x y.

(** [record_all fps] is the state of [wtable] and [ordering] after the
    fingerprints [fps] have been recorded in turn. *)
Definition record_all (fps : list Z) : gmap Z Z * list Z :=
  foldl record_fingerprint (∅, []) fps.

(** The sum of a vector of weights. *)
Definition sum_weights (ws : list Z) : Z := foldr Z.add 0 ws.

(** ** [init]: decoding the table (lines 154-161)

    [for (counter = 0; counter < ordering.size(); counter++)], by
    recursion on the part of [ordering] still to be visited. *)
Fixpoint fill_tables (fuel : nat) (C W : Z) (wtable : gmap Z Z)
    (ordering : list Z) (counter : nat)
    (pats : list (list Z)) (wts : list Z) : option (list (list Z) * list Z) :=
  match ordering with
  | [] => Some (pats, wts)
  | w :: rest =>
      result ← pats !! counter;
      decoded ← patternFromIndex fuel C W w result;
      _ ← wts !! counter;
      fill_tables fuel C W wtable rest (S counter)
        (<[counter := decoded]> pats)
        (<[counter := default 0 (wtable !! w)]> wts)
  end.

(** ** [agrees] (lines 163-173) *)

(** The two reads [p1[x + N * y]] and [p2[x - dx + N * (y - dy)]] of the
    source, with their [size_t] index arithmetic. *)
Definition cell_p1 (N : Z) (p1 : list Z) (x y : Z) : Z :=
  nth (Z.to_nat (Size.add x (Size.mul N y))) p1 0.

Definition cell_p2 (N : Z) (p2 : list Z) (dx dy x y : Z) : Z :=
  nth (Z.to_nat (Size.add (Size.sub x dx) (Size.mul N (Size.sub y dy)))) p2 0.

(** The inner loop over [x]; [false] is the early [return false]. *)
Fixpoint agrees_row (N : Z) (p1 p2 : list Z) (dx dy y : Z) (n : nat) (x : Z) : bool :=
  match n with
  | O => true
  | S n' =>
      if decide (cell_p1 N p1 x y ≠ cell_p2 N p2 dx dy x y)
      then false
      else agrees_row N p1 p2 dx dy y n' (x + 1)
  end.

Fixpoint agrees_rows (N : Z) (p1 p2 : list Z) (dx dy xmin xmax : Z) (n : nat) (y : Z) : bool :=
  match n with
  | O => true
  | S n' =>
      if agrees_row N p1 p2 dx dy y (Z.to_nat (xmax - xmin)) xmin
      then agrees_rows N p1 p2 dx dy xmin xmax n' (y + 1)
      else false
  end.

Definition agrees (N : Z) (p1 p2 : list Z) (dx dy : Z) : bool :=
  let xmin := Size.wrap (if decide (dx < 0) then 0 else dx) in
  let xmax := Size.wrap (if decide (dx < 0) then dx + N else N) in
  let ymin := Size.wrap (if decide (dy < 0) then 0 else dy) in
  let ymax := Size.wrap (if decide (dy < 0) then dy + N else N) in
  agrees_rows N p1 p2 dx dy xmin xmax (Z.to_nat (ymax - ymin)) ymin.

(** The statement of section 4.2: the palette indices match on every cell
    of the overlap region, [x] in [[max(0,dx), min(N,N+dx))] and [y] in
    [[max(0,dy), min(N,N+dy))] in the coordinates of [p1], the cell of
    [p2] being the one offset by [(-dx, -dy)]. *)
Definition overlap_matches (N : Z) (p1 p2 : list Z) (dx dy : Z) : Prop :=
  ∀ x y : Z,
    Z.max 0 dx ≤ x < Z.min N (N + dx) →
    Z.max 0 dy ≤ y < Z.min N (N + dy) →
    p1 !! Z.to_nat (x + N * y) = p2 !! Z.to_nat ((x - dx) + N * (y - dy)).

(** ** The propagator (lines 175-186) *)

Definition u32 (z : Z) : Z := z mod 2 ^ 32.

(** Modelled from the spec: the offset tables [DX] and [DY] are declared
    in wfc.hpp, which is not among the sources.  Section 4.2: "For each
    direction d with offset (dx, dy) ∈ {(−1,0),(0,1),(1,0),(0,−1)} (or any
    fixed convention used consistently throughout; offsets must satisfy
    opposite(d) = 3 − d if using the canonical order used by the
    propagator)".  [opposite_offsets dxs dys] is that requirement: the
    offset of direction [3 - d] is the negated offset of direction [d]. *)
Definition opposite_offsets (dxs dys : list Z) : Prop :=
  ∀ d : nat, (d < 4)%nat →
    nth (3 - d) dxs 0 = - nth d dxs 0 ∧ nth (3 - d) dys 0 = - nth d dys 0.

(** Modelled from the spec: tables for the examples, the four offsets of
    section 4.2 in an order that meets its requirement
    [opposite_offsets]. *)
Definition DX : list Z := [-1; 0; 0; 1].

(** Modelled from the spec: the vertical offsets that go with [DX]. *)
Definition DY : list Z := [0; 1; -1; 0].

Definition build_propagator (N : Z) (dxs dys : list Z) (pats : list (list Z)) (P : Z)
    : list (list (list Z)) :=
  (λ d, (λ p1,
      u32 <$> filter (λ p2, agrees N (nth (Z.to_nat p1) pats [])
                                     (nth (Z.to_nat p2) pats [])
                                     (nth d dxs 0) (nth d dys 0))
                     (seqZ 0 P))
     <$> seqZ 0 P)
  <$> seq 0 4.

(** The read [propagator[d][p1]]. *)
Definition compat (prop : list (list (list Z))) (d : nat) (p1 : Z) : list Z :=
  nth (Z.to_nat p1) (nth d prop []) [].

(** ** [init] (lines 85-187)

    [N] is the member of the base class, [dxs] and [dys] its offset
    tables, [old_weights] the content of [weights] before the call. *)
Definition init (fuel : nat) (opts : OverlappingWFCOptions) (N : Z)
    (dxs dys : list Z) (data : list Z) (old_weights : list Z) : option tables :=
  let '(sample, palette) := ords data in
  let C := Z.of_nat (length palette) in
  let W := compute_W N C in
  '(wtable, ordering) ← scan opts N C sample;
  let P := Z.of_nat (size wtable) in
  let pats0 := replicate (Z.to_nat P) (replicate (Z.to_nat (N * N)) 0) in
  let wts0 := resize (Z.to_nat P) 0 old_weights in
  '(pats, wts) ← fill_tables fuel C W wtable ordering 0 pats0 wts0;
  Some {| colors := palette; P := P; patterns := pats; weights := wts;
          propagator := build_propagator N dxs dys pats P |}.


(** ** [clear] (lines 189-200)

    [ban] and [propagate] belong to the base class in wfc.hpp, which is
    not among the sources: [clear] is embedded over any state of the
    solver and any two such operations.  [propagate] returns [false] on a
    contradiction. *)

Section Clear.
Context {wave_state : Type}.
Variable ban : wave_state → Z → Z → wave_state.
Variable propagate : wave_state → bool * wave_state.

(** The body of [for (size_t x = 0; x < MX; x++)] (lines 192-193). *)
Definition ground_bans_column (MX MY P : Z) (s : wave_state) (x : Z)
    : wave_state :=
  let s1 :=
    foldl (λ s p, ban s (Size.add x (Size.mul (Size.sub MY 1) MX)) p)
          s (seqZ 0 (Size.sub P 1)) in
  foldl (λ s y, ban s (Size.add x (Size.mul y MX)) (Size.sub P 1))
        s1 (seqZ 0 (Size.sub MY 1)).

Definition ground_bans (MX MY P : Z) (s : wave_state) : wave_state :=
  foldl (ground_bans_column MX MY P) s (seqZ 0 MX).

(** [void clear() noexcept]: what it leaves behind is the state of the
    solver and the text written to [std::cerr] ([cerr] is the text already
    there, one line per entry); it hands nothing else to its caller. *)
Definition clear (opts : OverlappingWFCOptions) (MX MY P : Z)
    (s : wave_state) (cerr : list string) : wave_state * list string :=
  if ground opts then
    let '(stable, s') := propagate (ground_bans MX MY P s) in
    (s', if stable then cerr else cerr ++ ["ground propagate failed"%string])
  else (s, cerr).
End Clear.

(** ** The run (section 4.5)

    The driver that calls [init] and [clear] and then solves is in
    wfc.hpp, which is not among the sources. *)

(** The error kinds of the specification (section 7). *)
Inductive error : Set :=
  | ConfigurationError
  | Contradiction
  | GroundFailure
  | Cancelled.

(** Modelled from the spec: what [wave.observe_cell()] gives, section
    4.3: "observe_cell() → cell | DONE | CONTRADICTION: per the configured
    heuristic (Entropy / MRV / Scanline), return the next cell to
    collapse, or signal completion / failure". *)
Inductive observation : Set :=
  | Cell (c : Z)
  | DONE
  | CONTRADICTION.

(** Modelled from the spec: how a run ends, section 4.5: "return
    success", "return failure"; section 7 gives the kinds of failure. *)
Inductive outcome : Set :=
  | Success
  | Failure (e : error).

(** What is known of a run when it stops: its outcome ([None] when the
    fuel of the loop ran out first), the number of calls of
    [observe_cell] made, the state of the solver, and [std::cerr]. *)
Record report (wave_state : Type) := {
  run_outcome : option outcome;
  run_observes : nat;
  run_wave : wave_state;
  run_cerr : list string
}.
Arguments run_outcome {_} _.
Arguments run_observes {_} _.
Arguments run_wave {_} _.
Arguments run_cerr {_} _.

Section Run.
Context {wave_state : Type}.
Variable ban : wave_state → Z → Z → wave_state.
Variable propagate : wave_state → bool * wave_state.
Variable observe_cell : wave_state → observation.
Variable collapse : wave_state → Z → wave_state.

(** Modelled from the spec: the loop of the driver, section 4.5:
    "loop: c = wave.observe_cell(); if c == DONE: return success; if c ==
    CONTRADICTION: return failure; wave.collapse(c, rng); if not
    propagate(): return failure".  The failure of these two exits is
    [Contradiction], section 4.4: "The result of each propagate() call is
    either stable ... or Contradiction".  Every turn of the loop uses one
    unit of fuel; [observes] counts the calls of [observe_cell]; the
    random generator is part of the state. *)
Fixpoint solve (fuel : nat) (s : wave_state) (observes : nat)
    : option outcome * nat * wave_state :=
  match fuel with
  | O => (None, observes, s)
  | S fuel' =>
      match observe_cell s with
      | DONE => (Some Success, S observes, s)
      | CONTRADICTION => (Some (Failure Contradiction), S observes, s)
      | Cell c =>
          let '(stable, s') := propagate (collapse s c) in
          if stable then solve fuel' s' (S observes)
          else (Some (Failure Contradiction), S observes, s')
      end
  end.

(** Modelled from the spec: the driver of section 4.5, "init(); clear();
    loop: ...", from the point where [init] has set [P]: the [clear] of
    the source, then the loop. *)
Definition run (fuel : nat) (opts : OverlappingWFCOptions) (MX MY P : Z)
    (s : wave_state) (cerr : list string) : report wave_state :=
  let '(s1, cerr1) := clear ban propagate opts MX MY P s cerr in
  let '(r, n, s2) := solve fuel s1 0 in
  {| run_outcome := r; run_observes := n; run_wave := s2; run_cerr := cerr1 |}.
End Run.

(** The ground bans as a list of (cell, pattern) pairs, column by column:
    on the bottom row every pattern before the last, on every other row
    the last pattern. *)
Definition ground_ban_list (MX MY P : Z) : list (Z * Z) :=
  x ← seqZ 0 MX;
  ((λ p, (x + (MY - 1) * MX, p)) <$> seqZ 0 (P - 1)) ++
  ((λ y, (x + y * MX, P - 1)) <$> seqZ 0 (MY - 1)).

(** A small wave for the examples: its state is the list of the bans
    issued, no pattern constrains a neighbour, and propagation reports a
    contradiction when some cell has lost all of its [P] patterns. *)
Definition example_ban (s : list (Z * Z)) (cell p : Z) : list (Z * Z) :=
  (cell, p) :: s.

Definition example_possible (s : list (Z * Z)) (cell p : Z) : bool :=
  bool_decide ((cell, p) ∉ s).

Definition example_propagate (cells P : Z) (s : list (Z * Z))
    : bool * list (Z * Z) :=
  (forallb (λ cell, existsb (example_possible s cell) (seqZ 0 P)) (seqZ 0 cells),
   s).

(** Its [observe_cell] looks at the cells in order: a cell without a
    pattern is a contradiction; otherwise the first cell that still has
    two patterns or more is the next one, and the wave is done when there
    is none. *)
Definition example_observe_cell (cells P : Z) (s : list (Z * Z)) : observation :=
  if forallb (λ cell, existsb (example_possible s cell) (seqZ 0 P)) (seqZ 0 cells)
  then
    match list_find
            (λ cell, (2 ≤ length (filter (λ p, example_possible s cell p)
                                         (seqZ 0 P)))%nat)
            (seqZ 0 cells) with
    | Some (_, cell) => Cell cell
    | None => DONE
    end
  else CONTRADICTION.

(** Its [collapse] keeps the first pattern left at the cell and bans the
    others. *)
Definition example_collapse (P : Z) (s : list (Z * Z)) (cell : Z) : list (Z * Z) :=
  foldl (λ s p, example_ban s cell p) s
        (tail (filter (λ p, example_possible s cell p) (seqZ 0 P))).

(** ** [get_output] (lines 209-250)

    [wave_get cell p] is [wave->get(cell, p)] of the base class; [MX] and
    [MY] are the members of the base class that bound the two loops. *)

(** The three channels of a packed colour (lines 237-241). *)
Definition rgb (color : Z) : Z * Z * Z :=
  (u8 (Z.land (Z.shiftr color 16) 255),
   u8 (Z.land (Z.shiftr color 8) 255),
   u8 (Z.land color 255)).

(** [int ob = -1; for (int p = 0; p < P; p++) if (get(p)) { ob = p; break; }] *)
Fixpoint first_possible (get : Z → bool) (n : nat) (p : Z) : Z :=
  match n with
  | O => -1
  | S n' => if get p then p else first_possible get n' (p + 1)
  end.

(** [int dx = x < MX - N + 1 ? 0 : N - 1;] and the same for [dy]. *)
Definition decoder_offset (N MX x : Z) : Z :=
  if decide (x < Size.wrap (MX - N + 1)) then 0 else N - 1.

(** The index [x - dx + (y - dy) * MX] of the cell read. *)
Definition decoder_cell (MX x y dx dy : Z) : Z :=
  Size.add (Size.sub x dx) (Size.mul (Size.sub y dy) MX).

(** Modelled from the spec: [Array2D] is declared in utils/array_2d.hpp,
    which is not among the sources.  Section 6: the output is "one 2D
    array of 3-byte RGB triples"; [out.set(x, y, v)] stores [v] at
    [(x, y)].  The decoder carries it with its local flag [sus]. *)
Record decoder_state := {
  out : gmap (Z * Z) (Z * Z * Z);
  sus : bool
}.

(** The body of the loop over [x] (lines 218-241). *)
Definition output_pixel (wave_get : Z → Z → bool) (t : tables) (N MX : Z)
    (y dy : Z) (st : decoder_state) (x : Z) : option decoder_state :=
  let dx := decoder_offset N MX x in
  let found :=
    first_possible (wave_get (decoder_cell MX x y dx dy)) (Z.to_nat (P t)) 0 in
  let ob := if decide (found < 0) then 0 else found in
  let sus' := if decide (found < 0) then true else sus st in
  pattern ← at_index (patterns t) ob;
  colorIndex ← at_index pattern (dx + dy * N);
  color ← at_index (colors t) colorIndex;
  Some {| out := <[(x, y) := rgb color]> (out st); sus := sus' |}.

(** The body of the loop over [y] (lines 215-242). *)
Definition output_row (wave_get : Z → Z → bool) (t : tables) (N MX MY : Z)
    (st : decoder_state) (y : Z) : option decoder_state :=
  for_each (output_pixel wave_get t N MX y (decoder_offset N MY y)) st (seqZ 0 MX).

Definition get_output (wave_get : Z → Z → bool) (t : tables) (N MX MY : Z)
    (cerr : list string) : option (gmap (Z * Z) (Z * Z * Z) * list string) :=
  st ← for_each (output_row wave_get t N MX MY) {| out := ∅; sus := false |}
                (seqZ 0 MY);
  Some (out st,
        if sus st
        then cerr ++ ["get_output() called on contradicted wfc(overlap)"%string]
        else cerr).

(** The pattern that the decoder shows for a cell: the first one still
    possible, pattern 0 when there is none. *)
Definition observed (wave_get : Z → Z → bool) (t : tables) (cell : Z) : Z :=
  let found := first_possible (wave_get cell) (Z.to_nat (P t)) 0 in
  if decide (found < 0) then 0 else found.

(** The colour that the decoder gives the pixel [(x, y)]: the palette
    entry of the index at offset [dx + dy * N] of the pattern shown for the
    cell [(x - dx, y - dy)], split into its channels. *)
Definition decode_pixel (wave_get : Z → Z → bool) (t : tables) (N MX MY x y : Z)
    : option (Z * Z * Z) :=
  let dx := decoder_offset N MX x in
  let dy := decoder_offset N MY y in
  pattern ← at_index (patterns t)
              (observed wave_get t (decoder_cell MX x y dx dy));
  colorIndex ← at_index pattern (dx + dy * N);
  color ← at_index (colors t) colorIndex;
  Some (rgb color).

(** No pattern is possible any more at a cell. *)
Definition cell_empty (wave_get : Z → Z → bool) (t : tables) (cell : Z) : Prop :=
  ∀ p, 0 ≤ p < P t → wave_get cell p = false.

(** The first sentence of section 4.6 on the pixels beyond the wave, of
    width [W]: "use the last valid cell and read the pattern at internal
    offset [x - (W - 1)]". *)
Definition last_cell_offset (W x : Z) : Z :=
  if decide (x < W) then 0 else x - (W - 1).

Definition last_cell_pixel (wave_get : Z → Z → bool) (t : tables)
    (N MX MY x y : Z) : option (Z * Z * Z) :=
  let dx := last_cell_offset (MX - N + 1) x in
  let dy := last_cell_offset (MY - N + 1) y in
  pattern ← at_index (patterns t)
              (observed wave_get t (decoder_cell MX x y dx dy));
  colorIndex ← at_index pattern (dx + dy * N);
  color ← at_index (colors t) colorIndex;
  Some (rgb color).

(** A pattern table that [get_output] can read: [P] patterns, at least
    one, each of [N * N] indices into the palette. *)
Definition readable (N : Z) (t : tables) : Prop :=
  0 < P t ∧
  Z.of_nat (length (patterns t)) = P t ∧
  Forall (λ p, length p = Z.to_nat (N * N) ∧
               Forall (λ d, 0 ≤ d < Z.of_nat (length (colors t))) p)
         (patterns t).

(** ** Examples *)

Definition example_options : OverlappingWFCOptions :=
  {| periodic_input := false; periodic_output := false;
     i_W := 3; i_H := 2; o_W := 4; o_H := 4;
     symmetry := 1; pattern_size := 2; ground := false |}.

(** Two rows [1 1 2]. *)
Definition example_exemplar : list Z := [1; 1; 2; 1; 1; 2].

Definition example_tables : tables :=
  {| colors := [1; 2]; P := 2;
     patterns := [[0; 0; 0; 0]; [0; 1; 0; 1]];
     weights := [1; 1];
     propagator := [[[0]; [0]]; [[0]; [1]]; [[0]; [1]]; [[0; 1]; []]] |}.

(** A one-colour exemplar and an output one pixel wide and two high, with
    the ground option: one pattern, a wave of two cells. *)
Definition ground_options : OverlappingWFCOptions :=
  {| periodic_input := false; periodic_output := false;
     i_W := 1; i_H := 1; o_W := 1; o_H := 2;
     symmetry := 1; pattern_size := 1; ground := true |}.

(** An exemplar of one pixel, smaller than the 2×2 pattern asked for. *)
Definition small_options : OverlappingWFCOptions :=
  {| periodic_input := false; periodic_output := false;
     i_W := 1; i_H := 1; o_W := 4; o_H := 4;
     symmetry := 1; pattern_size := 2; ground := false |}.

(** The table that [init] returns for it: no pattern. *)
Definition small_tables : tables :=
  {| colors := [7]; P := 0; patterns := []; weights := [];
     propagator := [[]; []; []; []] |}.

(** An exemplar of 3×3 pixels of nine colours, the colour of index [k]
    having the channels [(k, 2k, 3k)], for 3×3 patterns and a 5×5 output:
    one pattern. *)
Definition nine_options : OverlappingWFCOptions :=
  {| periodic_input := false; periodic_output := false;
     i_W := 3; i_H := 3; o_W := 5; o_H := 5;
     symmetry := 1; pattern_size := 3; ground := false |}.

Definition nine_exemplar : list Z :=
  [0; 66051; 132102; 198153; 264204; 330255; 396306; 462357; 528408].

Definition nine_tables : tables :=
  {| colors := nine_exemplar;
     P := 1;
     patterns := [[0; 1; 2; 3; 4; 5; 6; 7; 8]];
     weights := [1];
     propagator := [[[]]; [[]]; [[]]; [[]]] |}.

(** The palette index of every pixel and the palette, as [init] gets them
    from [ords]; the fingerprints of the enumerated pairs. *)
Definition sample_of (data : list Z) : list Z := (ords data).1.
Definition palette_size (data : list Z) : Z := Z.of_nat (length (ords data).2).

Definition pairs_enumerated (opts : OverlappingWFCOptions) (N : Z) (data : list Z)
    : list (list Z) :=
  enumerated opts N (sample_of data).

Definition fingerprints_enumerated (opts : OverlappingWFCOptions) (N : Z)
    (data : list Z) : list Z :=
  fingerprint (palette_size data) <$> pairs_enumerated opts N data.

(** ** The invariant of the scan

    What [wtable] and [ordering] hold once the fingerprints [fps] have been
    recorded: [ordering] lists the keys of [wtable] without repetition,
    they are the fingerprints seen, every count is positive and the counts
    add up to the number of fingerprints recorded. *)
Record scan_inv (fps : list Z) (wtable : gmap Z Z) (ordering : list Z) : Prop := {
  inv_nodup : NoDup ordering;
  inv_keys : ∀ k, k ∈ ordering ↔ is_Some (wtable !! k);
  inv_seen : ∀ k, k ∈ ordering ↔ k ∈ fps;
  inv_count : ∀ k v, wtable !! k = Some v → 1 ≤ v ≤ Z.of_nat (length fps);
  inv_size : size wtable = length ordering;
  inv_sum :
    sum_weights ((λ w, default 0 (wtable !! w)) <$> ordering)
    = Z.of_nat (length fps)
}.


(** ** Further notions for the properties of the source *)

(** The values of a list, each kept at its first occurrence. *)
Definition distinct_in_order (l : list Z) : list Z :=
  foldl (λ acc k, if decide (k ∈ acc) then acc else acc ++ [k]) [] l.

(** The number of entries of [l] equal to [p]. *)
Definition multiplicity {A : Type} `{EqDecision A} (p : A) (l : list A) : Z :=
  Z.of_nat (length (filter (λ q, q = p) l)).

(** An exemplar of 4×4 pixels of sixteen colours for 4×4 patterns:
    [16^16 = 2^64] does not fit in a [size_t]. *)
Definition sixteen_options : OverlappingWFCOptions :=
  {| periodic_input := false; periodic_output := false;
     i_W := 4; i_H := 4; o_W := 8; o_H := 8;
     symmetry := 1; pattern_size := 4; ground := false |}.

Definition sixteen_exemplar : list Z := seqZ 0 16.
(** * Proofs *)

Lemma wrap_small z : 0 ≤ z < 2 ^ 64 → Size.wrap z = z.
Proof. intros. unfold Size.wrap, Size.modulus. by apply Z.mod_small. Qed.

Lemma wrap_range z : 0 ≤ Size.wrap z < 2 ^ 64.
Proof. unfold Size.wrap, Size.modulus. apply Z.mod_pos_bound. lia. Qed.

Lemma digits_value_bounds C p :
  Forall (is_digit C) p → 0 ≤ digits_value C p < C ^ Z.of_nat (length p).
Proof.
  induction 1 as [|d p [Hd _] _ IH]; simpl; [lia|].
  assert (0 < C) by lia.
  assert (0 < C ^ Z.of_nat (length p)) by (apply Z.pow_pos_nonneg; lia).
  replace (Z.of_nat (S (length p))) with (Z.succ (Z.of_nat (length p))) by lia.
  rewrite Z.pow_succ_r by lia. nia.
Qed.

Lemma digits_value_app C p q :
  digits_value C (p ++ q) =
  digits_value C p * C ^ Z.of_nat (length q) + digits_value C q.
Proof.
  induction p as [|d p IH]; simpl; [lia|].
  rewrite IH, length_app, Nat2Z.inj_add, Z.pow_add_r by lia. lia.
Qed.

(** *** The inner while loop *)

Lemma count_loop_spec fuel residue power count :
  0 < power → 0 ≤ residue < 2 ^ 64 → 0 ≤ count →
  count + residue / power < 2 ^ 64 →
  count_loop fuel residue power count =
    if decide (residue / power < Z.of_nat fuel)
    then Some (residue mod power, count + residue / power)
    else None.
Proof.
  revert residue count.
  induction fuel as [|fuel IH]; intros residue count Hp Hr Hc Hq.
  - simpl. assert (0 ≤ residue / power) by (apply Z.div_pos; lia).
    by rewrite decide_False by lia.
  - cbn [count_loop]. destruct (decide (power ≤ residue)) as [Hle|Hgt].
    + assert (Hdiv : residue / power = (residue - power) / power + 1).
      { replace residue with ((residue - power) + 1 * power) at 1 by lia.
        by rewrite Z.div_add by lia. }
      assert (Hmod : residue mod power = (residue - power) mod power).
      { replace residue with ((residue - power) + 1 * power) at 1 by lia.
        by rewrite Z.mod_add by lia. }
      assert (0 ≤ (residue - power) / power) by (apply Z.div_pos; lia).
      unfold Size.sub, Size.add.
      rewrite !wrap_small by lia.
      rewrite IH by lia.
      rewrite Hdiv, Hmod.
      destruct (decide ((residue - power) / power < Z.of_nat fuel));
        [rewrite decide_True by lia|rewrite decide_False by lia]; [|done].
      do 2 f_equal. lia.
    + rewrite Z.div_small, Z.mod_small by lia.
      rewrite decide_True by lia. do 2 f_equal. lia.
Qed.

(** With a zero [power] the condition [residue >= power] of the source
    never becomes false: the loop has no result, whatever the fuel. *)
Lemma count_loop_zero fuel residue count :
  0 ≤ residue → count_loop fuel residue 0 count = None.
Proof.
  revert residue count. induction fuel as [|fuel IH]; intros residue count Hr; [done|].
  cbn [count_loop]. rewrite decide_True by done.
  apply IH. apply wrap_range.
Qed.

Lemma count_loop_residue fuel residue power count r c :
  0 ≤ residue →
  count_loop fuel residue power count = Some (r, c) → 0 ≤ r.
Proof.
  revert residue count. induction fuel as [|fuel IH]; intros residue count Hr; [done|].
  cbn [count_loop]. case_decide.
  - apply IH, wrap_range.
  - by intros [= <- <-].
Qed.

(** *** Decoding a fingerprint *)

Lemma u8_digit C d : is_digit C d → u8 d = d.
Proof. intros [? ?]. unfold u8. apply Z.mod_small. lia. Qed.

Lemma patternFromIndex_loop_digits fuel C q : ∀ i residue power result,
  Forall (is_digit C) q →
  power = C ^ Z.of_nat (length q) → power < 2 ^ 64 →
  residue = digits_value C q →
  C ≤ Z.of_nat fuel →
  (i + length q ≤ length result)%nat →
  patternFromIndex_loop fuel C (length q) i residue power result =
    Some (take i result ++ q ++ drop (i + length q) result).
Proof.
  induction q as [|d q IH]; intros i residue power result Hq Hpow Hlt Hres Hfuel Hlen.
  { simpl. by rewrite Nat.add_0_r, take_drop. }
  apply Forall_cons in Hq as [Hd Hq].
  pose proof (digits_value_bounds C q Hq) as Hv.
  pose proof (u8_digit _ _ Hd) as Hu8.
  destruct Hd as [Hd Hd256].
  assert (HC : 0 < C) by lia.
  assert (Hpq : 0 < C ^ Z.of_nat (length q)) by (apply Z.pow_pos_nonneg; lia).
  cbn [length patternFromIndex_loop]. rewrite decide_False by lia.
  assert (Hpow' : power / C = C ^ Z.of_nat (length q)).
  { subst power. cbn [length].
    replace (Z.of_nat (S (length q))) with (Z.succ (Z.of_nat (length q))) by lia.
    rewrite Z.pow_succ_r by lia.
    rewrite Z.mul_comm, Z.div_mul by lia. done. }
  assert (Hsucc : power = C * C ^ Z.of_nat (length q)).
  { subst power. cbn [length].
    replace (Z.of_nat (S (length q))) with (Z.succ (Z.of_nat (length q))) by lia.
    by rewrite Z.pow_succ_r by lia. }
  rewrite Hpow'. simpl in Hres.
  assert (Hquot : residue / C ^ Z.of_nat (length q) = d).
  { subst residue. rewrite Z.add_comm, Z.div_add by lia.
    rewrite Z.div_small by lia. lia. }
  assert (Hrem : residue mod C ^ Z.of_nat (length q) = digits_value C q).
  { subst residue. rewrite Z.add_comm, Z.mod_add by lia.
    by rewrite Z.mod_small by lia. }
  rewrite count_loop_spec by nia.
  rewrite Hquot, Hrem, decide_True by lia.
  rewrite Z.add_0_l, Hu8.
  rewrite IH; try done; try lia.
  2: { rewrite length_insert. cbn [length] in Hlen. lia. }
  f_equal.
  assert (Hi : (i < length result)%nat) by (cbn [length] in Hlen; lia).
  rewrite (take_S_r _ _ d) by (by apply list_lookup_insert_eq).
  rewrite take_insert_ge by lia.
  rewrite drop_insert_lt by lia.
  rewrite <- app_assoc. cbn [app length].
  by replace (S i + length q)%nat with (i + S (length q))%nat by lia.
Qed.


(** Conversely: whenever the decoding loop returns after at least one
    digit, the power it started from is at least [C^n].  Otherwise some
    division leaves [power] at zero and the inner loop never ends. *)
Lemma patternFromIndex_loop_power fuel C n : ∀ i residue power result r,
  0 ≤ C → 0 ≤ residue → 0 ≤ power →
  patternFromIndex_loop fuel C n i residue power result = Some r →
  n = O ∨ 0 < C ∧ C ^ Z.of_nat n ≤ power.
Proof.
  induction n as [|n IH]; intros i residue power result r HC Hr Hp Hsome; [by left|].
  right. cbn [patternFromIndex_loop] in Hsome.
  case_decide as HC0; [done|].
  destruct (count_loop fuel residue (power / C) 0) as [[residue' count]|] eqn:Hcl; [|done].
  assert (0 ≤ power / C) by (apply Z.div_pos; lia).
  assert (0 < power / C).
  { destruct (decide (power / C = 0)) as [Hz|]; [|lia].
    rewrite Hz, count_loop_zero in Hcl; done. }
  assert (C * (power / C) ≤ power) by (apply Z.mul_div_le; lia).
  split; [lia|].
  replace (Z.of_nat (S n)) with (Z.succ (Z.of_nat n)) by lia.
  rewrite Z.pow_succ_r by lia.
  apply IH in Hsome as [->|[_ Hle]]; try lia.
  - change (Z.of_nat 0) with 0. rewrite Z.pow_0_r. nia.
  - nia.
  - exact (count_loop_residue _ _ _ _ _ _ Hr Hcl).
Qed.

(** *** The encoding loop *)

Lemma power_loop_spec C n : ∀ W,
  0 ≤ W < 2 ^ 64 →
  power_loop C n W = Size.wrap (W * C ^ Z.of_nat n).
Proof.
  induction n as [|n IH]; intros W HW.
  - change (Z.of_nat 0) with 0. rewrite Z.pow_0_r, Z.mul_1_r.
    by rewrite wrap_small.
  - cbn [power_loop]. rewrite IH by apply wrap_range.
    unfold Size.mul, Size.wrap.
    rewrite Z.mul_mod_idemp_l by (unfold Size.modulus; lia).
    f_equal.
    replace (Z.of_nat (S n)) with (Z.succ (Z.of_nat n)) by lia.
    rewrite Z.pow_succ_r by lia. lia.
Qed.

Lemma compute_W_spec N C :
  compute_W N C = Size.wrap (C ^ Z.of_nat (Z.to_nat (N * N))).
Proof. unfold compute_W. rewrite power_loop_spec by lia. f_equal. lia. Qed.

Lemma pow_le_pow C (i n : nat) :
  0 < C → (i ≤ n)%nat → C ^ Z.of_nat i ≤ C ^ Z.of_nat n.
Proof. intros. apply Z.pow_le_mono_r; lia. Qed.

Lemma fingerprint_loop_spec C p :
  Forall (is_digit C) p → C ^ Z.of_nat (length p) < 2 ^ 64 →
  ∀ n i, (n + i = length p)%nat →
    fingerprint_loop C p n i (digits_value C (drop n p)) (C ^ Z.of_nat i)
    = digits_value C p.
Proof.
  intros Hp Hfit. induction n as [|n IH]; intros i Hni; [done|].
  cbn [fingerprint_loop].
  destruct (lookup_lt_is_Some_2 p n) as [d Hd]; [lia|].
  assert (Hdig : is_digit C d) by (eapply Forall_lookup_1; eauto).
  assert (HC : 0 < C) by (destruct Hdig; lia).
  replace (length p - 1 - i)%nat with n by lia.
  rewrite (nth_lookup_Some _ _ _ _ Hd).
  pose proof (drop_S _ _ _ Hd) as Hdrop.
  assert (Hval : digits_value C (drop n p) =
                 d * C ^ Z.of_nat i + digits_value C (drop (S n) p)).
  { rewrite Hdrop. cbn [digits_value]. rewrite length_drop.
    do 3 f_equal. lia. }
  assert (Hb1 : 0 ≤ digits_value C (drop (S n) p)).
  { apply digits_value_bounds, Forall_drop, Hp. }
  assert (Hb2 : digits_value C (drop n p) < C ^ Z.of_nat (S i)).
  { pose proof (digits_value_bounds C (drop n p) (Forall_drop _ _ _ Hp)) as Hb.
    rewrite length_drop in Hb. replace (length p - n)%nat with (S i) in Hb by lia.
    lia. }
  assert (Hb3 : C ^ Z.of_nat (S i) ≤ C ^ Z.of_nat (length p))
    by (apply pow_le_pow; lia).
  assert (Hpi : 0 < C ^ Z.of_nat i) by (apply Z.pow_pos_nonneg; lia).
  assert (Hsi : C ^ Z.of_nat (S i) = C ^ Z.of_nat i * C).
  { replace (Z.of_nat (S i)) with (Z.succ (Z.of_nat i)) by lia.
    rewrite Z.pow_succ_r by lia. lia. }
  destruct Hdig as [[Hd0 _] _].
  unfold Size.add, Size.mul.
  rewrite (wrap_small (d * _)) by nia.
  rewrite (wrap_small (C ^ _ * C)) by lia.
  rewrite wrap_small by nia.
  rewrite <- Hsi.
  replace (digits_value C (drop (S n) p) + d * C ^ Z.of_nat i)
    with (digits_value C (drop n p)) by lia.
  apply IH. lia.
Qed.

(** Without overflow the fingerprint is the base-[C] value of the pattern. *)
Lemma fingerprint_value C p :
  Forall (is_digit C) p → C ^ Z.of_nat (length p) < 2 ^ 64 →
  fingerprint C p = digits_value C p.
Proof.
  intros Hp Hfit. unfold fingerprint.
  pose proof (fingerprint_loop_spec C p Hp Hfit (length p) 0) as H.
  rewrite drop_all in H. apply H. lia.
Qed.

Lemma fingerprint_loop_nonneg C p n : ∀ i ind power,
  0 ≤ ind → 0 ≤ fingerprint_loop C p n i ind power.
Proof.
  induction n as [|n IH]; intros i ind power Hind; [done|].
  cbn [fingerprint_loop]. apply IH, wrap_range.
Qed.

Lemma fingerprint_nonneg C p : 0 ≤ fingerprint C p.
Proof. by apply fingerprint_loop_nonneg. Qed.

Lemma patternFromIndex_fingerprint fuel C p result :
  Forall (is_digit C) p → C ^ Z.of_nat (length p) < 2 ^ 64 →
  length result = length p → C ≤ Z.of_nat fuel →
  patternFromIndex fuel C (C ^ Z.of_nat (length p)) (fingerprint C p) result
  = Some p.
Proof.
  intros Hp Hfit Hlen Hfuel. unfold patternFromIndex.
  rewrite fingerprint_value, Hlen by done.
  rewrite patternFromIndex_loop_digits by (done || lia).
  rewrite take_0, drop_ge by lia. by rewrite app_nil_r.
Qed.

(** C3.  For every pattern [p] of [N * N] palette indices, each below the
    palette size [C], when [C^(N*N)] fits in a [size_t]: decoding with
    [patternFromIndex] (from the power [W] that [init] computes, into a
    vector of [N * N] entries, with fuel for [C] tests of the inner loop)
    the fingerprint that the encoding loop of [init] gives [p] returns
    exactly [p]; this fingerprint is the sum of [p_i * C^(N*N-1-i)]. *)
Theorem fingerprint_roundtrip (fuel : nat) (N C : Z) (p result : list Z) :
  length p = Z.to_nat (N * N) →
  Forall (is_digit C) p →
  C ^ (N * N) < 2 ^ 64 →
  length result = Z.to_nat (N * N) →
  C ≤ Z.of_nat fuel →
  fingerprint C p = digits_value C p ∧
  patternFromIndex fuel C (compute_W N C) (fingerprint C p) result = Some p.
Proof.
  intros Hlen Hp Hfit Hres Hfuel.
  assert (HNN : Z.of_nat (Z.to_nat (N * N)) = N * N) by nia.
  assert (Hfit' : C ^ Z.of_nat (length p) < 2 ^ 64) by (by rewrite Hlen, HNN).
  split; [by apply fingerprint_value|].
  rewrite compute_W_spec, wrap_small.
  - rewrite <- Hlen. apply patternFromIndex_fingerprint; try done. congruence.
  - rewrite HNN. split; [|done]. destruct p as [|d p].
    + simpl in Hlen. rewrite <- HNN, <- Hlen. simpl. lia.
    + apply Forall_cons in Hp as [[Hd _] _]. apply Z.pow_nonneg. lia.
Qed.

Lemma fingerprint_roundtrip_witness :
  patternFromIndex 3 3 (compute_W 2 3) (fingerprint 3 [2; 0; 1; 2])
    [0; 0; 0; 0] = Some [2; 0; 1; 2].
Proof.
  apply (fingerprint_roundtrip 3 2 3 [2; 0; 1; 2] [0; 0; 0; 0]).
  - reflexivity.
  - repeat constructor; lia.
  - reflexivity.
  - reflexivity.
  - lia.
Defined.

(** ** [agrees] *)

Section Agrees.
Variables (N : Z) (p1 p2 : list Z) (dx dy : Z).


Lemma agrees_row_true y n : ∀ x,
  agrees_row N p1 p2 dx dy y n x = true ↔
  ∀ k, x ≤ k < x + Z.of_nat n → cell_p1 N p1 k y = cell_p2 N p2 dx dy k y.
Proof.
  induction n as [|n IH]; intros x.
  - split; [lia|done].
  - cbn [agrees_row]. case_decide as Hne.
    + split; [done|]. intros Hall. destruct Hne. apply (Hall x). lia.
    + rewrite IH. split.
      * intros Hall k Hk. destruct (decide (k = x)) as [->|]; [done|].
        apply Hall. lia.
      * intros Hall k Hk. apply Hall. lia.
Qed.

Lemma agrees_rows_true xmin xmax n : ∀ y,
  agrees_rows N p1 p2 dx dy xmin xmax n y = true ↔
  ∀ j, y ≤ j < y + Z.of_nat n →
  ∀ k, xmin ≤ k < xmin + Z.of_nat (Z.to_nat (xmax - xmin)) → cell_p1 N p1 k j = cell_p2 N p2 dx dy k j.
Proof.
  induction n as [|n IH]; intros y.
  - split; [lia|done].
  - cbn [agrees_rows].
    destruct (agrees_row N p1 p2 dx dy y _ xmin) eqn:Hrow.
    + pose proof (proj1 (agrees_row_true _ _ _) Hrow) as Hrow'.
      rewrite IH. split.
      * intros Hall j Hj. destruct (decide (j = y)) as [->|]; [done|].
        apply Hall. lia.
      * intros Hall j Hj. apply Hall. lia.
    + split; [done|]. intros Hall.
      assert (agrees_row N p1 p2 dx dy y (Z.to_nat (xmax - xmin)) xmin = true)
        as Hrow'; [|congruence].
      apply agrees_row_true. apply Hall. lia.
Qed.

Hypothesis HN : 0 ≤ N < 2 ^ 32.
Hypothesis Hdx : - N ≤ dx ≤ N.
Hypothesis Hdy : - N ≤ dy ≤ N.

Lemma agrees_index x y :
  Z.max 0 dx ≤ x < Z.min N (N + dx) →
  Z.max 0 dy ≤ y < Z.min N (N + dy) →
  Size.add x (Size.mul N y) = x + N * y ∧
  Size.add (Size.sub x dx) (Size.mul N (Size.sub y dy))
    = (x - dx) + N * (y - dy).
Proof.
  intros Hx Hy. unfold Size.add, Size.sub, Size.mul.
  assert (2 ^ 32 * 2 ^ 32 = 2 ^ 64) by done.
  rewrite (wrap_small (N * y)) by nia.
  rewrite (wrap_small (x + _)) by nia.
  rewrite (wrap_small (x - dx)), (wrap_small (y - dy)) by lia.
  rewrite (wrap_small (N * _)) by nia.
  rewrite wrap_small by nia. done.
Qed.

Lemma agrees_region :
  agrees N p1 p2 dx dy = true ↔
  ∀ x y, Z.max 0 dx ≤ x < Z.min N (N + dx) →
         Z.max 0 dy ≤ y < Z.min N (N + dy) →
    nth (Z.to_nat (x + N * y)) p1 0 =
    nth (Z.to_nat ((x - dx) + N * (y - dy))) p2 0.
Proof.
  unfold agrees.
  assert (H32 : 2 ^ 32 < 2 ^ 64) by done.
  assert (Hxmin : Size.wrap (if decide (dx < 0) then 0 else dx) = Z.max 0 dx).
  { destruct (decide (dx < 0)); rewrite wrap_small; lia. }
  assert (Hxmax : Size.wrap (if decide (dx < 0) then dx + N else N)
                  = Z.min N (N + dx)).
  { destruct (decide (dx < 0)); rewrite wrap_small; lia. }
  assert (Hymin : Size.wrap (if decide (dy < 0) then 0 else dy) = Z.max 0 dy).
  { destruct (decide (dy < 0)); rewrite wrap_small; lia. }
  assert (Hymax : Size.wrap (if decide (dy < 0) then dy + N else N)
                  = Z.min N (N + dy)).
  { destruct (decide (dy < 0)); rewrite wrap_small; lia. }
  rewrite Hxmin, Hxmax, Hymin, Hymax, agrees_rows_true.
  assert (Hread : ∀ x y,
    Z.max 0 dx ≤ x < Z.min N (N + dx) →
    Z.max 0 dy ≤ y < Z.min N (N + dy) →
    cell_p1 N p1 x y = cell_p2 N p2 dx dy x y ↔
    nth (Z.to_nat (x + N * y)) p1 0 =
    nth (Z.to_nat ((x - dx) + N * (y - dy))) p2 0).
  { intros x y Hx Hy. unfold cell_p1, cell_p2.
    by destruct (agrees_index x y Hx Hy) as [-> ->]. }
  split.
  - intros Hall x y Hx Hy. apply Hread; [done..|]. apply Hall; lia.
  - intros Hall j Hj k Hk. apply Hread; [lia..|]. apply Hall; lia.
Qed.

Lemma agrees_overlap_lengths :
  length p1 = Z.to_nat (N * N) → length p2 = Z.to_nat (N * N) →
  agrees N p1 p2 dx dy = true ↔ overlap_matches N p1 p2 dx dy.
Proof.
  intros Hl1 Hl2. rewrite agrees_region.
  apply forall_proper; intros x. apply forall_proper; intros y.
  apply forall_proper; intros Hx. apply forall_proper; intros Hy.
  destruct (lookup_lt_is_Some_2 p1 (Z.to_nat (x + N * y))) as [a Ha]; [nia|].
  destruct (lookup_lt_is_Some_2 p2 (Z.to_nat (x - dx + N * (y - dy))))
    as [b Hb]; [nia|].
  rewrite (nth_lookup_Some _ _ _ _ Ha), (nth_lookup_Some _ _ _ _ Hb), Ha, Hb.
  split; congruence.
Qed.
End Agrees.

(** C4.  For patterns [p1], [p2] of [N * N] entries and an offset
    [(dx, dy)] with [|dx| < N] and [|dy| < N]: [agrees] returns true if and
    only if the palette indices of [p1] and [p2] match on every cell of the
    overlap region [x ∈ [max(0,dx), min(N,N+dx))],
    [y ∈ [max(0,dy), min(N,N+dy))] in the coordinates of [p1], the cell of
    [p2] being the cell of [p1] offset by [(-dx, -dy)]. *)
Theorem agrees_iff_overlap (N : Z) (p1 p2 : list Z) (dx dy : Z) :
  0 < N < 2 ^ 32 →
  length p1 = Z.to_nat (N * N) → length p2 = Z.to_nat (N * N) →
  Z.abs dx < N → Z.abs dy < N →
  agrees N p1 p2 dx dy = true ↔ overlap_matches N p1 p2 dx dy.
Proof.
  intros HN Hl1 Hl2 Hdx Hdy. apply agrees_overlap_lengths; (done || lia).
Qed.

Lemma agrees_iff_overlap_witness :
  agrees 2 [0; 1; 1; 0] [1; 0; 0; 1] (-1) 0 = true ↔
  overlap_matches 2 [0; 1; 1; 0] [1; 0; 0; 1] (-1) 0.
Proof.
  apply (agrees_iff_overlap 2 [0; 1; 1; 0] [1; 0; 0; 1] (-1) 0).
  - lia.
  - reflexivity.
  - reflexivity.
  - simpl; lia.
  - simpl; lia.
Defined.

(** ** The propagator *)

(** Agreement at an offset is agreement, the other way round, at the
    negated offset. *)
Lemma agrees_opposite N p1 p2 dx dy :
  0 ≤ N < 2 ^ 32 → - N ≤ dx ≤ N → - N ≤ dy ≤ N →
  agrees N p1 p2 dx dy = agrees N p2 p1 (- dx) (- dy).
Proof.
  intros HN Hdx Hdy. apply eq_true_iff_eq.
  rewrite !agrees_region by lia. split.
  - intros Hall x y Hx Hy. symmetry.
    replace (x + N * y) with ((x - - dx) - dx + N * ((y - - dy) - dy)) by lia.
    apply Hall; lia.
  - intros Hall x y Hx Hy. symmetry.
    replace (x + N * y) with ((x - dx) - - dx + N * ((y - dy) - - dy)) by lia.
    apply Hall; lia.
Qed.

Lemma u32_small z : 0 ≤ z < 2 ^ 32 → u32 z = z.
Proof. intros. by apply Z.mod_small. Qed.

Lemma compat_build_propagator N dxs dys pats P (d : nat) p1 p2 :
  (d < 4)%nat → 0 ≤ P ≤ 2 ^ 32 → 0 ≤ p1 < P →
  p2 ∈ compat (build_propagator N dxs dys pats P) d p1 ↔
  0 ≤ p2 < P ∧
  agrees N (nth (Z.to_nat p1) pats []) (nth (Z.to_nat p2) pats [])
         (nth d dxs 0) (nth d dys 0) = true.
Proof.
  intros Hd HP Hp1. unfold compat, build_propagator.
  assert (Hrow : ∀ f : nat → list (list Z), nth d (f <$> seq 0 4) [] = f d).
  { intros f. do 4 (destruct d as [|d]; [done|]). lia. }
  rewrite Hrow.
  erewrite nth_lookup_Some; last first.
  { rewrite list_lookup_fmap, lookup_seqZ_lt by lia. simpl. reflexivity. }
  rewrite Z.add_0_l, Z2Nat.id by lia.
  rewrite list_elem_of_fmap. split.
  - intros (q & -> & Hq). apply list_elem_of_filter in Hq as [Hag Hq].
    apply elem_of_seqZ in Hq. rewrite u32_small by lia.
    split; [lia|]. by apply Is_true_true.
  - intros [Hp2 Hag]. exists p2. rewrite u32_small by lia. split; [done|].
    apply list_elem_of_filter. split; [by apply Is_true_true|].
    apply elem_of_seqZ. lia.
Qed.

Lemma propagator_symmetric N dxs dys pats P (d d' : nat) p1 p2 :
  0 ≤ N < 2 ^ 32 → 0 ≤ P ≤ 2 ^ 32 →
  (d < 4)%nat → (d' < 4)%nat →
  nth d' dxs 0 = - nth d dxs 0 → nth d' dys 0 = - nth d dys 0 →
  - N ≤ nth d dxs 0 ≤ N → - N ≤ nth d dys 0 ≤ N →
  0 ≤ p1 < P → 0 ≤ p2 < P →
  p2 ∈ compat (build_propagator N dxs dys pats P) d p1 ↔
  p1 ∈ compat (build_propagator N dxs dys pats P) d' p2.
Proof.
  intros HN HP Hd Hd' Hdx Hdy Hbx Hby Hp1 Hp2.
  rewrite !compat_build_propagator by done.
  rewrite Hdx, Hdy, <- agrees_opposite by lia. tauto.
Qed.

(** ** The helpers: palette indices and window shapes *)

Lemma ords_step_digits st c :
  Forall (is_digit (Z.of_nat (length st.2))) st.1 →
  Forall (is_digit (Z.of_nat (length (ords_step st c).2))) (ords_step st c).1.
Proof.
  destruct st as [sample palette]. simpl. intros Hs.
  assert (Hu8 : ∀ i : nat, 0 ≤ u8 (Z.of_nat i) ≤ Z.of_nat i ∧ u8 (Z.of_nat i) < 256).
  { intros i. unfold u8. pose proof (Z.mod_pos_bound (Z.of_nat i) 256).
    pose proof (Z.mod_le (Z.of_nat i) 256). lia. }
  destruct (list_find _ palette) as [[i c']|] eqn:Hfind; simpl.
  - apply list_find_Some in Hfind as (Hi & _ & _).
    apply lookup_lt_Some in Hi.
    apply Forall_app. split; [done|]. apply Forall_singleton.
    specialize (Hu8 i). unfold is_digit. lia.
  - rewrite length_app. simpl. apply Forall_app. split.
    + eapply Forall_impl; [exact Hs|]. unfold is_digit. intros; lia.
    + apply Forall_singleton. specialize (Hu8 (length palette)).
      unfold is_digit. lia.
Qed.

Lemma ords_digits data :
  Forall (is_digit (Z.of_nat (length (ords data).2))) (ords data).1.
Proof.
  unfold ords.
  assert (Hgen : ∀ st, Forall (is_digit (Z.of_nat (length st.2))) st.1 →
    Forall (is_digit (Z.of_nat (length (foldl ords_step st data).2)))
           (foldl ords_step st data).1).
  { induction data as [|c data IH]; intros st Hst; [done|].
    simpl. apply IH, ords_step_digits, Hst. }
  apply Hgen. constructor.
Qed.

Lemma nth_digit C q k :
  0 < C → Forall (is_digit C) q → is_digit C (nth k q 0).
Proof.
  intros HC Hq. rewrite nth_lookup.
  destruct (q !! k) as [d|] eqn:Hd; simpl.
  - eapply Forall_lookup_1; eauto.
  - unfold is_digit. lia.
Qed.

Lemma pattern_of_length N f :
  length (pattern_of N f) = Z.to_nat (N * N).
Proof. unfold pattern_of. by rewrite length_fmap, length_seqZ. Qed.

Lemma pattern_of_Forall (Q : Z → Prop) N f :
  (∀ x y, Q (f x y)) → Forall Q (pattern_of N f).
Proof. intros Hf. unfold pattern_of. apply Forall_fmap, Forall_forall. intros; apply Hf. Qed.

Lemma rotated_pattern N C q :
  0 < C → Forall (is_digit C) q → is_pattern N C (rotated N q).
Proof.
  intros HC Hq. split; [apply pattern_of_length|].
  apply pattern_of_Forall. intros. by apply nth_digit.
Qed.

Lemma reflected_pattern N C q :
  0 < C → Forall (is_digit C) q → is_pattern N C (reflected N q).
Proof.
  intros HC Hq. split; [apply pattern_of_length|].
  apply pattern_of_Forall. intros. by apply nth_digit.
Qed.

Lemma squareSymmetries_patterns N C q subgroup :
  0 < C → is_pattern N C q →
  Forall (is_pattern N C) (squareSymmetries N q subgroup).
Proof.
  intros HC Hq. unfold squareSymmetries. apply Forall_take.
  pose proof (rotated_pattern N C q HC (proj2 Hq)) as H1.
  pose proof (rotated_pattern N C _ HC (proj2 H1)) as H2.
  pose proof (rotated_pattern N C _ HC (proj2 H2)) as H3.
  destruct Hq as [Hql Hq], H1 as [Hl1 H1], H2 as [Hl2 H2], H3 as [Hl3 H3].
  repeat apply Forall_cons_2; try apply Forall_nil_2;
    try (by split); by apply reflected_pattern.
Qed.

Lemma length_squareSymmetries N q subgroup :
  Z.of_nat (length (squareSymmetries N q subgroup)) = Z.min (Z.max 0 subgroup) 8.
Proof. unfold squareSymmetries. rewrite length_take. simpl. lia. Qed.

Lemma sample_at_digit opts C sample x y dx dy :
  0 < C → Forall (is_digit C) sample →
  is_digit C (default 0 (sample_at opts sample x y dx dy)).
Proof.
  intros HC Hs. unfold sample_at.
  destruct (decide (i_W opts = 0)); [unfold is_digit; simpl; lia|].
  destruct (decide (i_H opts = 0)); [unfold is_digit; simpl; lia|].
  unfold at_index. destruct (decide _); [|unfold is_digit; simpl; lia].
  destruct (sample !! _) as [v|] eqn:Hv; simpl.
  - eapply Forall_lookup_1; eauto.
  - unfold is_digit. lia.
Qed.

Lemma window_content_pattern opts N C sample x y :
  0 < C → Forall (is_digit C) sample →
  is_pattern N C (window_content opts N sample x y).
Proof.
  intros HC Hs. split; [apply pattern_of_length|].
  apply pattern_of_Forall. intros. by apply sample_at_digit.
Qed.

Lemma variants_patterns opts N C sample x y :
  0 < C → Forall (is_digit C) sample →
  Forall (is_pattern N C) (variants opts N sample x y).
Proof.
  intros HC Hs. apply squareSymmetries_patterns; [done|].
  by apply window_content_pattern.
Qed.

Lemma enumerated_patterns opts N C sample :
  0 < C → Forall (is_digit C) sample →
  Forall (is_pattern N C) (enumerated opts N sample).
Proof.
  intros HC Hs. unfold enumerated.
  apply Forall_bind, Forall_forall. intros y _.
  apply Forall_bind, Forall_forall. intros x _.
  by apply variants_patterns.
Qed.

(** The number of (origin, variant) pairs. *)
Lemma length_bind_const {A B} (f : A → list B) (l : list A) (n : nat) :
  (∀ a, length (f a) = n) → length (l ≫= f) = (length l * n)%nat.
Proof.
  intros Hf. induction l as [|a l IH]; [done|].
  rewrite bind_cons, length_app, Hf, IH. simpl. lia.
Qed.

Lemma length_enumerated opts N sample :
  Z.of_nat (length (enumerated opts N sample)) =
  Z.min (u8 (symmetry opts)) 8
  * Z.max 0 (origin_xmax opts N) * Z.max 0 (origin_ymax opts N).
Proof.
  unfold enumerated.
  set (k := Z.to_nat (Z.min (u8 (symmetry opts)) 8)).
  assert (Hu8 : 0 ≤ u8 (symmetry opts)).
  { unfold u8. apply Z.mod_pos_bound. lia. }
  rewrite (length_bind_const _ _ (Z.to_nat (origin_xmax opts N) * k)%nat).
  - rewrite length_seqZ. subst k. nia.
  - intros y. rewrite (length_bind_const _ _ k).
    + by rewrite length_seqZ.
    + intros x. unfold variants. apply Nat2Z.inj.
      rewrite length_squareSymmetries. subst k. lia.
Qed.

(** ** The scan: [wtable] and [ordering] *)

Lemma sum_weights_app l k :
  sum_weights (l ++ k) = sum_weights l + sum_weights k.
Proof. induction l as [|x l IH]; simpl; [done|]. unfold sum_weights in *. simpl. lia. Qed.

Lemma sum_weights_insert (wt : gmap Z Z) k v l :
  NoDup l →
  sum_weights ((λ w, default 0 (<[k := v]> wt !! w)) <$> l) =
  sum_weights ((λ w, default 0 (wt !! w)) <$> l)
  + (if decide (k ∈ l) then v - default 0 (wt !! k) else 0).
Proof.
  induction 1 as [|w l Hw Hl IH]; [done|].
  rewrite !fmap_cons. unfold sum_weights in *. cbn [foldr]. rewrite IH.
  destruct (decide (k = w)) as [->|Hne].
  - rewrite lookup_insert_eq.
    rewrite (decide_False (P := w ∈ l)) by done.
    rewrite (decide_True (P := w ∈ w :: l)) by left.
    simpl. lia.
  - rewrite lookup_insert_ne by done.
    destruct (decide (k ∈ l)) as [Hin|Hnin].
    + rewrite (decide_True (P := k ∈ w :: l)) by (by right). lia.
    + rewrite (decide_False (P := k ∈ w :: l)); [lia|].
      by intros [?|?]%elem_of_cons.
Qed.

Lemma scan_inv_nil : scan_inv [] ∅ [].
Proof.
  split; try done.
  - apply NoDup_nil_2.
  - intros k. rewrite lookup_empty. split; [by intros ?%elem_of_nil|by intros [? ?]].
Qed.

Lemma scan_inv_step fps wt ord k :
  scan_inv fps wt ord → Z.of_nat (length fps) + 1 < 2 ^ 64 →
  scan_inv (fps ++ [k]) (record_fingerprint (wt, ord) k).1
                        (record_fingerprint (wt, ord) k).2.
Proof.
  intros [Hnd Hkeys Hseen Hcount Hsize Hsum] Hlen.
  unfold record_fingerprint. cbn [fst snd].
  assert (Hlen' : Z.of_nat (length (fps ++ [k])) = Z.of_nat (length fps) + 1).
  { rewrite length_app. simpl. lia. }
  destruct (wt !! k) as [v|] eqn:Hk; cbn [from_option id].
  - (* the fingerprint was seen before *)
    pose proof (Hcount _ _ Hk) as Hv.
    assert (Hin : k ∈ ord) by (apply Hkeys; eauto).
    rewrite decide_False by lia. unfold Size.add. rewrite wrap_small by lia.
    split.
    + done.
    + intros k'. rewrite Hkeys.
      destruct (decide (k = k')) as [->|Hne].
      * rewrite lookup_insert_eq, Hk. split; eauto.
      * by rewrite lookup_insert_ne.
    + intros k'. rewrite elem_of_app, list_elem_of_singleton, Hseen.
      split; [by left|]. intros [?| ->]; [done|]. by apply Hseen.
    + intros k' v'. rewrite Hlen'.
      destruct (decide (k = k')) as [->|Hne].
      * rewrite lookup_insert_eq. intros [= <-]. lia.
      * rewrite lookup_insert_ne by done. intros Hk'. apply Hcount in Hk'. lia.
    + rewrite map_size_insert_Some; eauto.
    + rewrite sum_weights_insert, decide_True, Hk, Hsum, Hlen' by done.
      simpl. lia.
  - (* a new fingerprint *)
    assert (Hnin : k ∉ ord).
    { rewrite Hkeys, Hk. by intros [? ?]. }
    rewrite decide_True by done. unfold Size.add. rewrite wrap_small by lia.
    split.
    + apply NoDup_app. split_and!; [done| |apply NoDup_singleton].
      intros k' Hk' ->%list_elem_of_singleton. done.
    + intros k'. rewrite elem_of_app, list_elem_of_singleton, Hkeys.
      destruct (decide (k = k')) as [->|Hne].
      * rewrite lookup_insert_eq. split; eauto.
      * rewrite lookup_insert_ne by done. split; [|by left].
        intros [?|?]; [done|congruence].
    + intros k'. rewrite !elem_of_app, Hseen. done.
    + intros k' v'. rewrite Hlen'.
      destruct (decide (k = k')) as [->|Hne].
      * rewrite lookup_insert_eq. intros [= <-]. lia.
      * rewrite lookup_insert_ne by done. intros Hk'. apply Hcount in Hk'. lia.
    + rewrite map_size_insert_None by done. rewrite length_app. simpl. lia.
    + rewrite fmap_app, sum_weights_app, sum_weights_insert by done.
      rewrite decide_False, Hsum, Hlen' by done.
      simpl. rewrite lookup_insert_eq. simpl. lia.
Qed.

Lemma record_all_inv fps :
  Z.of_nat (length fps) < 2 ^ 64 →
  scan_inv fps (record_all fps).1 (record_all fps).2.
Proof.
  induction fps as [|k fps IH] using rev_ind; intros Hlen.
  - apply scan_inv_nil.
  - unfold record_all. rewrite foldl_snoc. fold (record_all fps).
    rewrite length_app in Hlen. simpl in Hlen.
    destruct (record_all fps) as [wt ord] eqn:Hrec.
    apply scan_inv_step; [apply IH|]; lia.
Qed.

Lemma foldl_bind {A B S} (f : S → B → S) (g : A → list B) (l : list A) (s : S) :
  foldl f s (l ≫= g) = foldl (λ s a, foldl f s (g a)) s l.
Proof.
  revert s. induction l as [|a l IH]; intros s; [done|].
  by rewrite bind_cons, foldl_app, IH.
Qed.

Lemma foldl_ext_eq {A S} (f g : S → A → S) (l : list A) (s : S) :
  (∀ s a, f s a = g s a) → foldl f s l = foldl g s l.
Proof.
  intros Hfg. revert s. induction l as [|a l IH]; intros s; [done|].
  simpl. by rewrite Hfg, IH.
Qed.

(** A window that was read is its content. *)
Lemma window_Some opts N sample x y temp :
  window opts N sample x y = Some temp →
  temp = window_content opts N sample x y.
Proof.
  unfold window, pattern_of_reads, window_content, pattern_of.
  generalize (seqZ 0 (N * N)). intros l. revert temp.
  induction l as [|k l IH]; intros temp; simpl.
  - by intros [= <-].
  - destruct (sample_at opts sample x y (k mod N) (k / N)) as [v|]; [|done].
    destruct (mapM _ l) as [vs|]; [|done].
    simpl. intros [= <-]. f_equal. by apply IH.
Qed.

Lemma window_is_Some opts N sample x y :
  (∀ dx dy, is_Some (sample_at opts sample x y dx dy)) →
  is_Some (window opts N sample x y).
Proof.
  intros Hreads. unfold window, pattern_of_reads.
  apply mapM_is_Some, Forall_forall. intros k _. apply Hreads.
Qed.

(** A loop whose every turn has a result is a fold. *)
Lemma for_each_foldl {S} (body : S → Z → option S) (g : S → Z → S) range s s' :
  (∀ s i s1, body s i = Some s1 → s1 = g s i) →
  for_each body s range = Some s' → s' = foldl g s range.
Proof.
  intros Hbody. revert s. induction range as [|i range IH]; intros s; simpl.
  - by intros [= <-].
  - destruct (body s i) as [s1|] eqn:Hs1; [|done]. simpl.
    intros Hrest. apply Hbody in Hs1 as ->. by apply IH.
Qed.

Lemma for_each_is_Some {S} (body : S → Z → option S) range s :
  (∀ s i, i ∈ range → is_Some (body s i)) →
  is_Some (for_each body s range).
Proof.
  revert s. induction range as [|i range IH]; intros s Hbody; simpl; [done|].
  destruct (Hbody s i) as [s1 ->]; [left|]. simpl.
  apply IH. intros s2 j Hj. apply Hbody. by right.
Qed.

Lemma scan_origin_Some opts N C sample y st x st' :
  scan_origin opts N C sample y st x = Some st' →
  st' = foldl (λ st p, record_fingerprint st (fingerprint C p)) st
              (variants opts N sample x y).
Proof.
  unfold scan_origin, variants.
  destruct (window opts N sample x y) as [temp|] eqn:Hw; [|done].
  simpl. intros [= <-]. by rewrite (window_Some _ _ _ _ _ _ Hw).
Qed.

(** When the scan has a result, the fingerprints of the enumerated pairs
    have been recorded in turn. *)
Lemma scan_record_all opts N C sample st :
  scan opts N C sample = Some st →
  st = record_all (fingerprint C <$> enumerated opts N sample).
Proof.
  unfold scan, record_all, enumerated. intros Hscan.
  rewrite foldl_fmap, foldl_bind.
  eapply for_each_foldl; [|exact Hscan].
  intros s y s1 Hrow. rewrite foldl_bind.
  eapply for_each_foldl; [|exact Hrow].
  intros s2 x s3. apply scan_origin_Some.
Qed.

(** The reads of the scan are inside an exemplar that holds
    [i_W * i_H] pixels. *)
Lemma sample_at_is_Some opts sample x y dx dy :
  0 < i_W opts → 0 < i_H opts →
  i_W opts * i_H opts ≤ Z.of_nat (length sample) →
  is_Some (sample_at opts sample x y dx dy).
Proof.
  intros HW HH Hlen. unfold sample_at.
  rewrite decide_False by lia. rewrite decide_False by lia.
  set (a := Size.add x dx mod i_W opts).
  set (b := Size.add y dy mod i_H opts).
  assert (0 ≤ a < i_W opts) by (apply Z.mod_pos_bound; lia).
  assert (0 ≤ b < i_H opts) by (apply Z.mod_pos_bound; lia).
  assert (0 ≤ Size.mul b (i_W opts) ≤ b * i_W opts).
  { unfold Size.mul, Size.wrap, Size.modulus.
    split; [apply Z.mod_pos_bound; lia|apply Z.mod_le; [nia|lia]]. }
  assert (0 ≤ Size.add a (Size.mul b (i_W opts)) ≤ a + Size.mul b (i_W opts)).
  { unfold Size.add, Size.wrap, Size.modulus.
    split; [apply Z.mod_pos_bound; lia|apply Z.mod_le; lia]. }
  unfold at_index. rewrite decide_True by lia.
  apply lookup_lt_is_Some_2. nia.
Qed.

Lemma scan_is_Some opts N C sample :
  0 < i_W opts → 0 < i_H opts →
  i_W opts * i_H opts ≤ Z.of_nat (length sample) →
  is_Some (scan opts N C sample).
Proof.
  intros HW HH Hlen. unfold scan.
  apply for_each_is_Some. intros s y _.
  apply for_each_is_Some. intros s1 x _.
  unfold scan_origin.
  destruct (window_is_Some opts N sample x y) as [temp ->].
  - intros. by apply sample_at_is_Some.
  - by eexists.
Qed.


(** ** Fuel *)

Lemma count_loop_mono fuel fuel' residue power count x :
  (fuel ≤ fuel')%nat →
  count_loop fuel residue power count = Some x →
  count_loop fuel' residue power count = Some x.
Proof.
  revert fuel' residue count.
  induction fuel as [|fuel IH]; intros fuel' residue count Hle; [done|].
  destruct fuel' as [|fuel']; [lia|].
  cbn [count_loop]. case_decide; [|done]. apply IH. lia.
Qed.

Lemma patternFromIndex_loop_mono fuel fuel' C n : ∀ i residue power result r,
  (fuel ≤ fuel')%nat →
  patternFromIndex_loop fuel C n i residue power result = Some r →
  patternFromIndex_loop fuel' C n i residue power result = Some r.
Proof.
  induction n as [|n IH]; intros i residue power result r Hle; [done|].
  cbn [patternFromIndex_loop]. case_decide; [done|].
  destruct (count_loop fuel _ _ _) as [[residue' count]|] eqn:Hcl; [|done].
  rewrite (count_loop_mono _ _ _ _ _ _ Hle Hcl). by apply IH.
Qed.

(** Whatever the fuel, a decoding that returns on the fingerprint of a
    pattern returns that pattern. *)
Lemma patternFromIndex_fingerprint_inv fuel N C p result r :
  is_pattern N C p → C ^ (N * N) < 2 ^ 64 → 0 ≤ N →
  length result = Z.to_nat (N * N) →
  patternFromIndex fuel C (C ^ (N * N)) (fingerprint C p) result = Some r →
  r = p.
Proof.
  intros [Hlen Hp] Hfit HN Hres Hsome.
  assert (HNN : Z.of_nat (length p) = N * N) by nia.
  assert (Hbig : patternFromIndex (fuel `max` Z.to_nat C) C (C ^ (N * N))
                    (fingerprint C p) result = Some p).
  { rewrite <- HNN. apply patternFromIndex_fingerprint; [done| |lia|lia].
    by rewrite HNN. }
  unfold patternFromIndex in *.
  apply (patternFromIndex_loop_mono _ (fuel `max` Z.to_nat C)) in Hsome; [|lia].
  congruence.
Qed.

(** ** Filling the tables *)

Lemma fill_tables_spec fuel C W wt rest : ∀ counter pats wts pats' wts',
  fill_tables fuel C W wt rest counter pats wts = Some (pats', wts') →
  length pats' = length pats ∧ length wts' = length wts ∧
  (∀ i, (i < counter)%nat → pats' !! i = pats !! i ∧ wts' !! i = wts !! i) ∧
  (∀ j w, rest !! j = Some w →
     ∃ res0 r, pats !! (counter + j)%nat = Some res0 ∧
               patternFromIndex fuel C W w res0 = Some r ∧
               pats' !! (counter + j)%nat = Some r ∧
               wts' !! (counter + j)%nat = Some (default 0 (wt !! w))).
Proof.
  induction rest as [|w rest IH]; intros counter pats wts pats' wts' Hfill.
  { simpl in Hfill. injection Hfill as <- <-.
    by split_and!. }
  cbn [fill_tables] in Hfill.
  destruct (pats !! counter) as [res0|] eqn:Hres0; [|done].
  cbn [mbind option_bind] in Hfill.
  destruct (patternFromIndex fuel C W w res0) as [decoded|] eqn:Hdec; [|done].
  cbn [mbind option_bind] in Hfill.
  destruct (wts !! counter) as [w0|] eqn:Hw0; [|done].
  cbn [mbind option_bind] in Hfill.
  apply IH in Hfill as (Hlp & Hlw & Hbelow & Hat).
  rewrite !length_insert in *.
  pose proof (lookup_lt_Some _ _ _ Hres0) as Hc1.
  pose proof (lookup_lt_Some _ _ _ Hw0) as Hc2.
  split_and!; try done.
  - intros i Hi. destruct (Hbelow i) as [-> ->]; [lia|].
    by rewrite !list_lookup_insert_ne by lia.
  - intros [|j] w' Hj.
    + injection Hj as <-. rewrite Nat.add_0_r.
      exists res0, decoded. split_and!; try done.
      * destruct (Hbelow counter) as [-> _]; [lia|].
        by rewrite list_lookup_insert_eq.
      * destruct (Hbelow counter) as [_ ->]; [lia|].
        by rewrite list_lookup_insert_eq.
    + destruct (Hat j w' Hj) as (r0 & r & H1 & H2 & H3 & H4).
      replace (counter + S j)%nat with (S counter + j)%nat by lia.
      exists r0, r. split_and!; try done.
      by rewrite list_lookup_insert_ne in H1 by lia.
Qed.

Lemma fill_tables_total fuel C W wt rest : ∀ counter pats wts,
  (counter + length rest ≤ length wts)%nat →
  (∀ j w, rest !! j = Some w →
     ∃ res0 r, pats !! (counter + j)%nat = Some res0 ∧
               patternFromIndex fuel C W w res0 = Some r) →
  is_Some (fill_tables fuel C W wt rest counter pats wts).
Proof.
  induction rest as [|w rest IH]; intros counter pats wts Hlen Hdec; [by eexists|].
  cbn [fill_tables].
  destruct (Hdec 0%nat w eq_refl) as (res0 & r & Hres0 & Hr).
  rewrite Nat.add_0_r in Hres0. rewrite Hres0. cbn [mbind option_bind].
  rewrite Hr. cbn [mbind option_bind].
  cbn [length] in Hlen.
  destruct (lookup_lt_is_Some_2 wts counter) as [w0 Hw0]; [lia|].
  rewrite Hw0. cbn [mbind option_bind].
  apply IH.
  - rewrite length_insert. lia.
  - intros j w' Hj. destruct (Hdec (S j) w' Hj) as (r0 & r' & H1 & H2).
    exists r0, r'. split; [|done].
    rewrite list_lookup_insert_ne by lia.
    by replace (S counter + j)%nat with (counter + S j)%nat by lia.
Qed.

(** ** What [init] returns *)

Lemma init_unfold fuel opts N dxs dys data w0 t :
  init fuel opts N dxs dys data w0 = Some t →
  let C := palette_size data in
  let st := record_all (fingerprints_enumerated opts N data) in
  colors t = (ords data).2 ∧
  P t = Z.of_nat (size st.1) ∧
  fill_tables fuel C (compute_W N C) st.1 st.2 0
    (replicate (Z.to_nat (P t)) (replicate (Z.to_nat (N * N)) 0))
    (resize (Z.to_nat (P t)) 0 w0) = Some (patterns t, weights t) ∧
  propagator t = build_propagator N dxs dys (patterns t) (P t).
Proof.
  unfold init, fingerprints_enumerated, pairs_enumerated, palette_size, sample_of.
  destruct (ords data) as [sample palette]. cbn [fst snd].
  destruct (scan _ _ _ _) as [st0|] eqn:Hscan; [|done].
  apply scan_record_all in Hscan as ->. cbn [mbind option_bind].
  destruct (record_all _) as [wt ord]. cbn [fst snd].
  destruct (fill_tables _ _ _ _ _ _ _ _) as [[pats wts]|] eqn:Hfill; [|done].
  cbn [mbind option_bind]. intros [= <-]. cbn [colors P patterns weights propagator].
  done.
Qed.

Section InitReturns.
Variables (fuel : nat) (opts : OverlappingWFCOptions) (N : Z)
          (dxs dys data w0 : list Z) (t : tables).
Hypothesis Hinit : init fuel opts N dxs dys data w0 = Some t.
Hypothesis HN : 0 < N.
Hypothesis Hpairs : Z.of_nat (length (pairs_enumerated opts N data)) < 2 ^ 64.

Let C := palette_size data.
Let fps := fingerprints_enumerated opts N data.
Let wt := (record_all fps).1.
Let ord := (record_all fps).2.

Lemma init_scan_inv : scan_inv fps wt ord.
Proof.
  apply record_all_inv. unfold fps, fingerprints_enumerated.
  by rewrite length_fmap.
Qed.

Lemma init_P : P t = Z.of_nat (length ord).
Proof.
  destruct (init_unfold _ _ _ _ _ _ _ _ Hinit) as (_ & HP & _).
  rewrite HP. f_equal. apply init_scan_inv.
Qed.

Lemma init_fill :
  fill_tables fuel C (compute_W N C) wt ord 0
    (replicate (length ord) (replicate (Z.to_nat (N * N)) 0))
    (resize (length ord) 0 w0) = Some (patterns t, weights t).
Proof.
  destruct (init_unfold _ _ _ _ _ _ _ _ Hinit) as (_ & _ & Hfill & _).
  rewrite init_P, Nat2Z.id in Hfill. exact Hfill.
Qed.

Lemma init_lengths :
  length (patterns t) = length ord ∧ length (weights t) = length ord.
Proof.
  destruct (fill_tables_spec _ _ _ _ _ _ _ _ _ _ init_fill) as (H1 & H2 & _).
  by rewrite H1, H2, length_replicate, length_resize.
Qed.

(** Every entry of the tables comes from the fingerprint in the same
    place of [ordering]. *)
Lemma init_entry j w :
  ord !! j = Some w →
  ∃ r, patternFromIndex fuel C (compute_W N C) w
         (replicate (Z.to_nat (N * N)) 0) = Some r ∧
       patterns t !! j = Some r ∧
       weights t !! j = Some (default 0 (wt !! w)).
Proof.
  intros Hj.
  destruct (fill_tables_spec _ _ _ _ _ _ _ _ _ _ init_fill) as (_ & _ & _ & Hat).
  destruct (Hat j w Hj) as (res0 & r & Hres0 & Hr & Hp & Hw).
  simpl in *. apply lookup_replicate in Hres0 as [-> _]. eauto.
Qed.

(** A table with an entry was decoded without overflow. *)
Lemma init_no_overflow :
  ord ≠ [] → 0 < C ∧ C ^ (N * N) < 2 ^ 64 ∧ compute_W N C = C ^ (N * N).
Proof.
  intros Hne. destruct ord as [|w rest] eqn:Hord; [done|].
  destruct (init_entry 0 w) as (r & Hr & _); [by rewrite Hord|].
  assert (Hw : 0 ≤ w).
  { assert (w ∈ fps) as Hin.
    { apply init_scan_inv. fold ord. rewrite Hord. left. }
    unfold fps, fingerprints_enumerated in Hin.
    apply list_elem_of_fmap in Hin as (p & -> & _). apply fingerprint_nonneg. }
  unfold patternFromIndex in Hr. rewrite length_replicate in Hr.
  assert (HC0 : 0 ≤ C) by (unfold C, palette_size; lia).
  pose proof (wrap_range (C ^ Z.of_nat (Z.to_nat (N * N)))) as Hrange.
  rewrite <- compute_W_spec in Hrange.
  apply patternFromIndex_loop_power in Hr as [Hz|[HC Hle]]; [nia| |done|done|lia].
  rewrite compute_W_spec in *.
  replace (Z.of_nat (Z.to_nat (N * N))) with (N * N) in * by nia.
  assert (0 < C ^ (N * N)) by (apply Z.pow_pos_nonneg; nia).
  unfold Size.wrap, Size.modulus in *.
  destruct (decide (C ^ (N * N) < 2 ^ 64)) as [Hlt|Hge].
  - rewrite Z.mod_small by lia. lia.
  - lia.
Qed.

(** Every pattern of the table is one of the enumerated variants, and
    its fingerprint is the entry of [ordering] in the same place. *)
Lemma init_pattern_variant j r :
  patterns t !! j = Some r →
  r ∈ pairs_enumerated opts N data ∧ ord !! j = Some (fingerprint C r).
Proof.
  intros Hr.
  destruct (lookup_lt_is_Some_2 ord j) as [w Hw].
  { rewrite <- (proj1 init_lengths). by eapply lookup_lt_Some. }
  destruct (init_entry j w Hw) as (r' & Hdec & Hr' & _).
  assert (r' = r) as -> by congruence.
  destruct init_no_overflow as (HC & Hfit & HW).
  { intros Hnil. by rewrite Hnil in Hw. }
  assert (w ∈ fps) as Hin.
  { apply init_scan_inv. by eapply list_elem_of_lookup_2. }
  unfold fps, fingerprints_enumerated in Hin.
  apply list_elem_of_fmap in Hin as (p & -> & Hp).
  assert (is_pattern N C p) as Hpat.
  { eapply Forall_forall; [|exact Hp].
    apply enumerated_patterns; [done|]. apply ords_digits. }
  fold C in Hdec. rewrite HW in Hdec.
  apply (patternFromIndex_fingerprint_inv _ N) in Hdec; try done; try lia.
  - by subst r.
  - by rewrite length_replicate.
Qed.

Lemma init_weight_entry j v :
  weights t !! j = Some v →
  ∃ w, ord !! j = Some w ∧ wt !! w = Some v ∧ 1 ≤ v.
Proof.
  intros Hv.
  destruct (lookup_lt_is_Some_2 ord j) as [w Hw].
  { rewrite <- (proj2 init_lengths). by eapply lookup_lt_Some. }
  destruct (init_entry j w Hw) as (_ & _ & _ & Hwj).
  assert (is_Some (wt !! w)) as [v' Hv'].
  { apply init_scan_inv. by eapply list_elem_of_lookup_2. }
  rewrite Hv' in Hwj. simpl in Hwj.
  assert (v' = v) as -> by congruence.
  exists w. split_and!; try done.
  pose proof (inv_count _ _ _ init_scan_inv _ _ Hv'). lia.
Qed.

Lemma init_weights :
  weights t = (λ w, default 0 (wt !! w)) <$> ord.
Proof.
  apply list_eq. intros j. rewrite list_lookup_fmap.
  destruct (ord !! j) as [w|] eqn:Hw; simpl.
  - by destruct (init_entry j w Hw) as (_ & _ & _ & ->).
  - apply lookup_ge_None. apply lookup_ge_None in Hw.
    by rewrite (proj2 init_lengths).
Qed.

Lemma init_NoDup : NoDup (patterns t).
Proof.
  apply NoDup_alt. intros i j r Hi Hj.
  apply init_pattern_variant in Hi as [_ Hi].
  apply init_pattern_variant in Hj as [_ Hj].
  eapply NoDup_lookup; [apply init_scan_inv|exact Hi|exact Hj].
Qed.

Lemma init_distinct :
  length ord = length (remove_dups fps).
Proof.
  apply Permutation_length, NoDup_Permutation.
  - apply init_scan_inv.
  - apply NoDup_remove_dups.
  - intros k. rewrite elem_of_remove_dups. apply init_scan_inv.
Qed.
End InitReturns.

(** C6.  After [init] has returned (for a pattern size [N > 0] and an
    exemplar that gives fewer than [2^64] (origin, variant) pairs, so
    that no [size_t] count wraps around): no two entries of the pattern
    table have equal content, two different entries having different
    base-[C] fingerprints; [patterns] and [weights] have length [P], the
    number of distinct fingerprints met; every weight is strictly
    positive. *)
Theorem init_pattern_table (fuel : nat) (opts : OverlappingWFCOptions) (N : Z)
    (dxs dys data w0 : list Z) (t : tables) :
  0 < N →
  Z.of_nat (length (pairs_enumerated opts N data)) < 2 ^ 64 →
  init fuel opts N dxs dys data w0 = Some t →
  NoDup (patterns t) ∧
  (∀ i j p q, patterns t !! i = Some p → patterns t !! j = Some q → i ≠ j →
     fingerprint (palette_size data) p ≠ fingerprint (palette_size data) q) ∧
  Z.of_nat (length (patterns t)) = P t ∧
  Z.of_nat (length (weights t)) = P t ∧
  P t = Z.of_nat (length (remove_dups (fingerprints_enumerated opts N data))) ∧
  Forall (λ w, 0 < w) (weights t).
Proof.
  intros HN Hpairs Hinit.
  pose proof (init_lengths _ _ _ _ _ _ _ _ Hinit Hpairs) as [Hlp Hlw].
  pose proof (init_P _ _ _ _ _ _ _ _ Hinit Hpairs) as HP.
  split_and!.
  - by eapply init_NoDup.
  - intros i j p q Hi Hj Hij Heq.
    eapply init_pattern_variant in Hi as [_ Hi]; [|done..].
    eapply init_pattern_variant in Hj as [_ Hj]; [|done..].
    rewrite Heq in Hi. apply Hij.
    eapply NoDup_lookup; [|exact Hi|exact Hj].
    by apply (init_scan_inv opts N data).
  - by rewrite Hlp, HP.
  - by rewrite Hlw, HP.
  - rewrite HP. f_equal. by eapply init_distinct.
  - apply Forall_lookup. intros j v Hv.
    eapply init_weight_entry in Hv as (w & _ & _ & Hpos); [|done..]. lia.
Qed.


(** ** [init] returns *)

Lemma ords_palette_nonempty data : data ≠ [] → 0 < palette_size data.
Proof.
  unfold palette_size, ords. intros Hne.
  assert (Hgen : ∀ l st, st.2 ≠ [] → (foldl ords_step st l).2 ≠ []).
  { induction l as [|c l IH]; intros st Hst; [done|].
    simpl. apply IH. destruct st as [sample palette]. simpl in *.
    destruct (list_find _ palette) as [[i c']|]; simpl; [done|].
    by destruct palette. }
  destruct data as [|c data]; [done|]. simpl.
  destruct (length _) eqn:Hlen; [|lia].
  apply length_zero_iff_nil in Hlen. by apply Hgen in Hlen.
Qed.

Lemma ords_sample_length data : length (ords data).1 = length data.
Proof.
  unfold ords.
  assert (Hgen : ∀ st, length (foldl ords_step st data).1
                       = (length st.1 + length data)%nat).
  { induction data as [|c data IH]; intros st; simpl; [lia|].
    rewrite IH. destruct st as [sample palette]. unfold ords_step.
    destruct (list_find _ palette) as [[i c']|]; simpl;
      rewrite length_app; simpl; lia. }
  by rewrite Hgen.
Qed.


Lemma example_init :
  init 2 example_options 2 DX DY example_exemplar [] = Some example_tables.
Proof. vm_compute. reflexivity. Qed.

Lemma init_pattern_table_witness :
  NoDup (patterns example_tables) ∧
  (∀ i j p q, patterns example_tables !! i = Some p →
     patterns example_tables !! j = Some q → i ≠ j →
     fingerprint (palette_size example_exemplar) p
     ≠ fingerprint (palette_size example_exemplar) q) ∧
  Z.of_nat (length (patterns example_tables)) = P example_tables ∧
  Z.of_nat (length (weights example_tables)) = P example_tables ∧
  P example_tables =
    Z.of_nat (length (remove_dups
      (fingerprints_enumerated example_options 2 example_exemplar))) ∧
  Forall (λ w, 0 < w) (weights example_tables).
Proof.
  apply (init_pattern_table 2 example_options 2 DX DY example_exemplar []).
  - lia.
  - vm_compute. reflexivity.
  - vm_compute. reflexivity.
Defined.


(** ** No validation in [init] *)

Lemma enumerated_nil opts N sample :
  origin_xmax opts N = 0 ∨ origin_ymax opts N = 0 →
  enumerated opts N sample = [].
Proof.
  intros H0. apply length_zero_iff_nil, Nat2Z.inj.
  rewrite length_enumerated. destruct H0 as [-> | ->]; simpl; lia.
Qed.

Lemma build_propagator_empty N dxs dys pats :
  build_propagator N dxs dys pats 0 = [[]; []; []; []].
Proof. reflexivity. Qed.

(** Without an origin the scan reads nothing and records nothing. *)
Lemma scan_no_origin opts N C sample :
  origin_xmax opts N = 0 ∨ origin_ymax opts N = 0 →
  scan opts N C sample = Some (∅, []).
Proof.
  unfold scan. intros [-> | ->]; [|done].
  generalize (seqZ 0 (origin_ymax opts N)). intros ys.
  induction ys as [|y ys IH]; [done|]. simpl. exact IH.
Qed.

(** C2, as the source has it.  [init] validates nothing and has no error
    to report.  For an input that is not periodic and an exemplar one
    pixel short of the pattern size in width or in height, the range of
    origins is empty: [init] returns, whatever the fuel, with an empty
    pattern table ([P = 0], no pattern, no weight, four empty propagator
    rows). *)
Theorem init_short_exemplar (fuel : nat) (opts : OverlappingWFCOptions) (N : Z)
    (dxs dys data w0 : list Z) :
  periodic_input opts = false →
  i_W opts = N - 1 ∨ i_H opts = N - 1 →
  init fuel opts N dxs dys data w0 =
    Some {| colors := (ords data).2; P := 0; patterns := []; weights := [];
            propagator := [[]; []; []; []] |}.
Proof.
  intros Hper Hshort. unfold init.
  destruct (ords data) as [sample palette]. cbn [snd].
  rewrite scan_no_origin.
  - cbn [mbind option_bind].
    rewrite map_size_empty. cbn [fill_tables Z.of_nat Z.to_nat replicate].
    rewrite resize_0. cbn [mbind option_bind].
    by rewrite build_propagator_empty.
  - unfold origin_xmax, origin_ymax. rewrite Hper.
    destruct Hshort as [-> | ->]; [left|right];
      (replace (N - 1 - N + 1) with 0 by lia); reflexivity.
Qed.

Lemma init_short_exemplar_witness :
  init 0 small_options 2 DX DY [7] [] =
    Some {| colors := [7]; P := 0; patterns := []; weights := [];
            propagator := [[]; []; []; []] |}.
Proof.
  apply (init_short_exemplar 0 small_options 2 DX DY [7] []).
  - reflexivity.
  - left. reflexivity.
Defined.

(** The claim fails on the source: the input is not periodic, the
    exemplar (1×1) is smaller than the pattern (2×2), and [init] returns a
    table instead of failing. *)
Lemma init_small_exemplar_returns :
  periodic_input small_options = false ∧
  i_W small_options < 2 ∧ i_H small_options < 2 ∧
  is_Some (init 0 small_options 2 DX DY [7] []).
Proof. split_and!; try done; by eexists. Qed.

(** X3.  An overflow of the fingerprint is not detected.  When
    [C^(N*N)] does not fit in a [size_t] and the scan met a pattern, the
    last division of [patternFromIndex] leaves [power] at zero and its
    inner loop does not end: [init] has no result, whatever the fuel. *)
Lemma init_overflow_no_result (fuel : nat) (opts : OverlappingWFCOptions)
    (N : Z) (dxs dys data w0 : list Z) :
  0 < N →
  Z.of_nat (length (pairs_enumerated opts N data)) < 2 ^ 64 →
  pairs_enumerated opts N data ≠ [] →
  2 ^ 64 ≤ palette_size data ^ (N * N) →
  init fuel opts N dxs dys data w0 = None.
Proof.
  intros HN Hpairs Hne Hover.
  destruct (init fuel opts N dxs dys data w0) as [t|] eqn:Hinit; [|done].
  exfalso.
  assert (Hord : (record_all (fingerprints_enumerated opts N data)).2 ≠ []).
  { intros Hnil.
    pose proof (inv_seen _ _ _ (init_scan_inv opts N data Hpairs)) as Hseen.
    unfold fingerprints_enumerated in *.
    destruct (pairs_enumerated opts N data) as [|p ps]; [done|].
    rewrite Hnil in Hseen.
    eapply elem_of_nil, Hseen. rewrite fmap_cons. left. }
  destruct (init_no_overflow _ _ _ _ _ _ _ _ Hinit HN Hpairs Hord)
    as (_ & Hfit & _).
  lia.
Qed.
(** ** Symmetry of the propagator *)

Lemma DX_DY_opposite : opposite_offsets DX DY.
Proof.
  intros d Hd.
  do 4 (destruct d as [|d]; [by (unfold DX, DY; simpl; lia)|]). lia.
Qed.

Lemma DX_DY_units (d : nat) :
  (d < 4)%nat → -1 ≤ nth d DX 0 ≤ 1 ∧ -1 ≤ nth d DY 0 ≤ 1.
Proof.
  intros Hd.
  do 4 (destruct d as [|d]; [by (unfold DX, DY; simpl; lia)|]). lia.
Qed.

(** C5.  In the propagator that [init] builds, with any offset tables in
    which direction [3 - d] has the negated offset of direction [d] (the
    requirement of section 4.2 on the tables) and no offset larger than a
    pattern: for every direction [d] and all pattern indices [p1], [p2]
    below [P], [p2] is in [propagator[d][p1]] if and only if [p1] is in
    [propagator[3 - d][p2]]. *)
Theorem init_propagator_symmetric (fuel : nat) (opts : OverlappingWFCOptions)
    (N : Z) (dxs dys data w0 : list Z) (t : tables) (d : nat) (p1 p2 : Z) :
  0 < N < 2 ^ 32 →
  opposite_offsets dxs dys →
  (∀ d : nat, (d < 4)%nat → - N ≤ nth d dxs 0 ≤ N ∧ - N ≤ nth d dys 0 ≤ N) →
  init fuel opts N dxs dys data w0 = Some t →
  P t ≤ 2 ^ 32 →
  (d < 4)%nat → 0 ≤ p1 < P t → 0 ≤ p2 < P t →
  p2 ∈ compat (propagator t) d p1 ↔ p1 ∈ compat (propagator t) (3 - d) p2.
Proof.
  intros HN Hopp Hunit Hinit HP Hd Hp1 Hp2.
  destruct (init_unfold _ _ _ _ _ _ _ _ Hinit) as (_ & _ & _ & ->).
  destruct (Hopp d Hd) as [Hx Hy]. destruct (Hunit d Hd) as [Hbx Hby].
  apply propagator_symmetric; (done || lia).
Qed.

Lemma init_propagator_symmetric_witness :
  0 ∈ compat (propagator example_tables) 0 1 ↔
  1 ∈ compat (propagator example_tables) (3 - 0) 0.
Proof.
  apply (init_propagator_symmetric 2 example_options 2 DX DY example_exemplar []).
  - lia.
  - exact DX_DY_opposite.
  - intros d Hd. pose proof (DX_DY_units d Hd). lia.
  - vm_compute. reflexivity.
  - simpl. lia.
  - lia.
  - simpl. lia.
  - simpl. lia.
Defined.

(** ** [clear] *)

Lemma foldl_ext_in {A S} (f g : S → A → S) (l : list A) (s : S) :
  (∀ s a, a ∈ l → f s a = g s a) → foldl f s l = foldl g s l.
Proof.
  revert s. induction l as [|a l IH]; intros s Hfg; [done|].
  simpl. rewrite Hfg by left. apply IH. intros s' a' Ha'. apply Hfg. by right.
Qed.

(** The bans that [clear] issues, in order. *)
Lemma ground_bans_list {wave_state : Type}
    (ban : wave_state → Z → Z → wave_state) (MX MY P : Z) (s : wave_state) :
  0 < P < 2 ^ 64 → 0 < MY → 0 ≤ MX → MX * MY < 2 ^ 64 →
  ground_bans ban MX MY P s
  = foldl (λ s cp, ban s cp.1 cp.2) s (ground_ban_list MX MY P).
Proof.
  intros HP HMY HMX Hfit. unfold ground_bans, ground_ban_list.
  rewrite foldl_bind. apply foldl_ext_in. intros s' x Hx%elem_of_seqZ.
  unfold ground_bans_column, Size.sub.
  rewrite !wrap_small by nia.
  rewrite foldl_app, !foldl_fmap. cbn [fst snd].
  assert (Hbottom : Size.add x (Size.mul (MY - 1) MX) = x + (MY - 1) * MX).
  { unfold Size.add, Size.mul. rewrite (wrap_small (_ * _)) by nia.
    rewrite wrap_small by nia. done. }
  rewrite Hbottom. apply foldl_ext_in. intros s'' y Hy%elem_of_seqZ.
  unfold Size.add, Size.mul. rewrite (wrap_small (_ * _)) by nia.
  by rewrite wrap_small by nia.
Qed.

Lemma elem_of_ground_ban_list MX MY P cell p :
  (cell, p) ∈ ground_ban_list MX MY P ↔
  ∃ x, 0 ≤ x < MX ∧
    ((cell = x + (MY - 1) * MX ∧ 0 ≤ p < P - 1) ∨
     (p = P - 1 ∧ ∃ y, 0 ≤ y < MY - 1 ∧ cell = x + y * MX)).
Proof.
  unfold ground_ban_list. rewrite list_elem_of_bind. split.
  - intros (x & Hin & Hx%elem_of_seqZ). exists x. split; [lia|].
    apply elem_of_app in Hin as [Hin|Hin];
      apply list_elem_of_fmap in Hin as (k & [= -> ->] & Hk%elem_of_seqZ).
    + left. split; [done|lia].
    + right. split; [done|]. exists k. split; [lia|done].
  - intros (x & Hx & [[-> Hp]|[-> (y & Hy & ->)]]); exists x;
      (split; [|apply elem_of_seqZ; lia]); apply elem_of_app.
    + left. apply list_elem_of_fmap. exists p. split; [done|].
      apply elem_of_seqZ. lia.
    + right. apply list_elem_of_fmap. exists y. split; [done|].
      apply elem_of_seqZ. lia.
Qed.

(** [clear] with the ground option, when the ground bans propagate to a
    contradiction: the line is written and the state is the one the
    failed propagation left. *)
Lemma clear_ground_contradiction {wave_state : Type}
    (ban : wave_state → Z → Z → wave_state)
    (propagate : wave_state → bool * wave_state)
    (opts : OverlappingWFCOptions) (MX MY P : Z)
    (s s' : wave_state) (cerr : list string) :
  ground opts = true →
  propagate (ground_bans ban MX MY P s) = (false, s') →
  clear ban propagate opts MX MY P s cerr
  = (s', cerr ++ ["ground propagate failed"%string]).
Proof. intros Hground Hprop. unfold clear. by rewrite Hground, Hprop. Qed.

Section Solve.
Context {wave_state : Type}.
Variable propagate : wave_state → bool * wave_state.
Variable observe_cell : wave_state → observation.
Variable collapse : wave_state → Z → wave_state.

(** The loop only adds to the number of observations, and its first turn
    makes one. *)
Lemma solve_observes_mono fuel s n :
  (n ≤ (solve propagate observe_cell collapse fuel s n).1.2)%nat.
Proof.
  revert s n. induction fuel as [|fuel IH]; intros s n; simpl; [lia|].
  destruct (observe_cell s) as [c| |]; simpl; try lia.
  destruct (propagate (collapse s c)) as [[] s1]; simpl; [|lia].
  specialize (IH s1 (S n)). lia.
Qed.

Lemma solve_observes_first fuel s n :
  (n < (solve propagate observe_cell collapse (S fuel) s n).1.2)%nat.
Proof.
  simpl. destruct (observe_cell s) as [c| |]; simpl; try lia.
  destruct (propagate (collapse s c)) as [[] s1]; simpl; [|lia].
  pose proof (solve_observes_mono fuel s1 (S n)). lia.
Qed.

(** No exit of the loop is a [GroundFailure]. *)
Lemma solve_no_ground_failure fuel s n :
  (solve propagate observe_cell collapse fuel s n).1.1
  ≠ Some (Failure GroundFailure).
Proof.
  revert s n. induction fuel as [|fuel IH]; intros s n; simpl; [done|].
  destruct (observe_cell s) as [c| |]; simpl; try done.
  destruct (propagate (collapse s c)) as [[] s1]; simpl; [apply IH|done].
Qed.

Lemma solve_contradiction fuel s n :
  observe_cell s = CONTRADICTION →
  solve propagate observe_cell collapse (S fuel) s n
  = (Some (Failure Contradiction), S n, s).
Proof. intros Hobs. simpl. by rewrite Hobs. Qed.
End Solve.




(** Without a contradiction, and without the ground option, [clear]
    writes nothing. *)
Lemma clear_quiet {wave_state : Type}
    (ban : wave_state → Z → Z → wave_state)
    (propagate : wave_state → bool * wave_state)
    (opts : OverlappingWFCOptions) (MX MY P : Z)
    (s : wave_state) (cerr : list string) :
  ground opts = false ∨ (propagate (ground_bans ban MX MY P s)).1 = true →
  (clear ban propagate opts MX MY P s cerr).2 = cerr.
Proof.
  unfold clear. intros [-> | Hok]; [done|].
  destruct (ground opts); [|done].
  destruct (propagate _) as [stable s']. simpl in Hok. by subst.
Qed.

(** The ground bans: every pattern but the last on the bottom row, the
    last pattern on every other row. *)
Lemma ground_bans_example :
  ground_bans example_ban 2 3 3 []
  = [(3, 2); (1, 2); (5, 1); (5, 0); (2, 2); (0, 2); (4, 1); (4, 0)].
Proof. reflexivity. Qed.

(** ** [get_output] *)

Lemma first_possible_spec (get : Z → bool) n : ∀ p0, 0 ≤ p0 →
  let found := first_possible get n p0 in
  (found = -1 ∧ ∀ p, p0 ≤ p < p0 + Z.of_nat n → get p = false) ∨
  (p0 ≤ found < p0 + Z.of_nat n ∧ get found = true ∧
   ∀ p, p0 ≤ p < found → get p = false).
Proof.
  induction n as [|n IH]; intros p0 Hp0; simpl.
  - left. split; [done|]. lia.
  - destruct (get p0) eqn:Hget.
    + right. split_and!; [lia..|done|lia].
    + destruct (IH (p0 + 1)) as [[Hf Hall]|(Hr & Hg & Hall)]; [lia|..].
      * left. split; [done|]. intros p Hp.
        destruct (decide (p = p0)) as [->|]; [done|]. apply Hall. lia.
      * right. split_and!; [lia..|done|].
        intros p Hp. destruct (decide (p = p0)) as [->|]; [done|].
        apply Hall. lia.
Qed.

Lemma observed_range wave_get t cell :
  0 < P t → 0 ≤ observed wave_get t cell < P t.
Proof.
  intros HP. unfold observed.
  destruct (first_possible_spec (wave_get cell) (Z.to_nat (P t)) 0)
    as [[-> _]|(Hr & _)]; [done| |].
  - rewrite decide_True by lia. lia.
  - rewrite decide_False by lia. lia.
Qed.

Lemma first_possible_empty wave_get t cell :
  0 ≤ P t →
  first_possible (wave_get cell) (Z.to_nat (P t)) 0 < 0 ↔
  cell_empty wave_get t cell.
Proof.
  intros HP. unfold cell_empty.
  destruct (first_possible_spec (wave_get cell) (Z.to_nat (P t)) 0)
    as [[-> Hall]|(Hr & Hg & _)]; [done| |].
  - split; [|lia]. intros _ p Hp. apply Hall. lia.
  - split; [lia|]. intros Hall. rewrite Hall in Hg by lia. done.
Qed.

Lemma observed_empty wave_get t cell :
  0 ≤ P t → cell_empty wave_get t cell → observed wave_get t cell = 0.
Proof.
  intros HP Hempty. unfold observed.
  by rewrite decide_True by (by apply first_possible_empty).
Qed.

(** One pixel: the body of the inner loop stores [decode_pixel] and
    raises the flag when the cell is empty. *)
Lemma output_pixel_spec wave_get t N MX MY y st x :
  output_pixel wave_get t N MX y (decoder_offset N MY y) st x =
  v ← decode_pixel wave_get t N MX MY x y;
  Some {| out := <[(x, y) := v]> (out st);
          sus := if decide (first_possible
                              (wave_get (decoder_cell MX x y
                                 (decoder_offset N MX x) (decoder_offset N MY y)))
                              (Z.to_nat (P t)) 0 < 0)
                 then true else sus st |}.
Proof.
  unfold output_pixel, decode_pixel, observed. cbn zeta.
  destruct (at_index (patterns t) _) as [pattern|]; [|done]. cbn [mbind option_bind].
  destruct (at_index pattern _) as [colorIndex|]; [|done]. cbn [mbind option_bind].
  by destruct (at_index (colors t) _) as [color|].
Qed.

Section Decoder.
Variables (wave_get : Z → Z → bool) (t : tables) (N MX MY : Z).

(** The flag raised by the pixel [(x, y)]. *)
Let empty_at (x y : Z) : Prop :=
  first_possible (wave_get (decoder_cell MX x y (decoder_offset N MX x)
                              (decoder_offset N MY y)))
                 (Z.to_nat (P t)) 0 < 0.

Lemma output_row_spec y xs : ∀ st st',
  NoDup xs →
  for_each (output_pixel wave_get t N MX y (decoder_offset N MY y)) st xs
    = Some st' →
  (∀ x, x ∈ xs → is_Some (decode_pixel wave_get t N MX MY x y) ∧
                 out st' !! (x, y) = decode_pixel wave_get t N MX MY x y) ∧
  (∀ k, ¬ (k.2 = y ∧ k.1 ∈ xs) → out st' !! k = out st !! k) ∧
  (sus st' = true ↔ sus st = true ∨ ∃ x, x ∈ xs ∧ empty_at x y).
Proof.
  induction xs as [|x xs IH]; intros st st' Hnd Hrun.
  { simpl in Hrun. injection Hrun as <-. split_and!.
    - by intros x ?%elem_of_nil.
    - done.
    - split; [by left|]. intros [?|(x & ?%elem_of_nil & _)]; done. }
  apply NoDup_cons in Hnd as [Hx Hnd].
  cbn [for_each] in Hrun. rewrite output_pixel_spec in Hrun.
  destruct (decode_pixel wave_get t N MX MY x y) as [v|] eqn:Hv; [|done].
  cbn [mbind option_bind] in Hrun.
  destruct (IH _ _ Hnd Hrun) as (Hin & Hout & Hsus). cbn [out sus] in *.
  split_and!.
  - intros x' [->|Hx']%elem_of_cons.
    + rewrite Hv. split; [by eexists|].
      rewrite Hout by (simpl; tauto). by rewrite lookup_insert_eq.
    + by apply Hin.
  - intros k Hk. rewrite Hout.
    + apply lookup_insert_ne. intros <-. apply Hk. simpl. split; [done|left].
    + intros [? ?]. apply Hk. split; [done|by right].
  - rewrite Hsus. fold (empty_at x y). split.
    + intros [Hs|(x' & Hx' & He)].
      * destruct (decide (empty_at x y));
          [right; exists x; split; [left|done]|by left].
      * right. exists x'. split; [by right|done].
    + intros [Hs|(x' & [->|Hx']%elem_of_cons & He)].
      * left. by destruct (decide (empty_at x y)).
      * left. by destruct (decide (empty_at x y)).
      * right. by exists x'.
Qed.

Lemma output_row_total y xs : ∀ st,
  (∀ x, x ∈ xs → is_Some (decode_pixel wave_get t N MX MY x y)) →
  is_Some (for_each (output_pixel wave_get t N MX y (decoder_offset N MY y))
                    st xs).
Proof.
  induction xs as [|x xs IH]; intros st Hall; [by eexists|].
  cbn [for_each]. rewrite output_pixel_spec.
  destruct (Hall x) as [v ->]; [left|]. cbn [mbind option_bind].
  apply IH. intros x' Hx'. apply Hall. by right.
Qed.

Lemma output_rows_spec ys : ∀ st st',
  NoDup ys →
  for_each (output_row wave_get t N MX MY) st ys = Some st' →
  (∀ x y, 0 ≤ x < MX → y ∈ ys →
     is_Some (decode_pixel wave_get t N MX MY x y) ∧
     out st' !! (x, y) = decode_pixel wave_get t N MX MY x y) ∧
  (∀ k, ¬ (k.2 ∈ ys ∧ 0 ≤ k.1 < MX) → out st' !! k = out st !! k) ∧
  (sus st' = true ↔
   sus st = true ∨ ∃ x y, 0 ≤ x < MX ∧ y ∈ ys ∧ empty_at x y).
Proof.
  induction ys as [|y ys IH]; intros st st' Hnd Hrun.
  { simpl in Hrun. injection Hrun as <-. split_and!.
    - by intros x y _ ?%elem_of_nil.
    - done.
    - split; [by left|]. intros [?|(x & y & _ & ?%elem_of_nil & _)]; done. }
  apply NoDup_cons in Hnd as [Hy Hnd].
  cbn [for_each] in Hrun.
  destruct (output_row wave_get t N MX MY st y) as [st1|] eqn:Hrow; [|done].
  cbn [mbind option_bind] in Hrun. unfold output_row in Hrow.
  apply output_row_spec in Hrow as (Hin1 & Hout1 & Hsus1); [|apply NoDup_seqZ].
  destruct (IH _ _ Hnd Hrun) as (Hin & Hout & Hsus).
  split_and!.
  - intros x y' Hx [->|Hy']%elem_of_cons.
    + destruct (Hin1 x) as [Hs Hv]; [apply elem_of_seqZ; lia|].
      split; [done|]. rewrite Hout; [done|]. simpl. tauto.
    + by apply Hin.
  - intros k Hk. rewrite Hout, Hout1; [done| |].
    + rewrite elem_of_seqZ. intros [<- ?]. apply Hk. split; [left|lia].
    + intros [? ?]. apply Hk. split; [by right|done].
  - rewrite Hsus, Hsus1. split.
    + intros [[Hs|(x & Hx%elem_of_seqZ & He)]|(x & y' & Hx & Hy' & He)].
      * by left.
      * right. exists x, y. split_and!; [lia..|left|done].
      * right. exists x, y'. split_and!; [lia..|by right|done].
    + intros [Hs|(x & y' & Hx & [->|Hy']%elem_of_cons & He)].
      * by left; left.
      * left; right. exists x. split; [apply elem_of_seqZ; lia|done].
      * right. by exists x, y'.
Qed.

Lemma output_rows_total ys : ∀ st,
  (∀ x y, 0 ≤ x < MX → y ∈ ys →
     is_Some (decode_pixel wave_get t N MX MY x y)) →
  is_Some (for_each (output_row wave_get t N MX MY) st ys).
Proof.
  induction ys as [|y ys IH]; intros st Hall; [by eexists|].
  cbn [for_each].
  assert (is_Some (output_row wave_get t N MX MY st y)) as [st1 ->].
  { unfold output_row. apply output_row_total.
    intros x Hx%elem_of_seqZ. apply Hall; [lia|left]. }
  cbn [mbind option_bind]. apply IH.
  intros x y' Hx Hy'. apply Hall; [done|by right].
Qed.

(** What [get_output] returns, pixel by pixel. *)
Lemma get_output_spec cerr o log :
  get_output wave_get t N MX MY cerr = Some (o, log) →
  (∀ x y, 0 ≤ x < MX → 0 ≤ y < MY →
     is_Some (decode_pixel wave_get t N MX MY x y) ∧
     o !! (x, y) = decode_pixel wave_get t N MX MY x y) ∧
  (∀ k, ¬ (0 ≤ k.1 < MX ∧ 0 ≤ k.2 < MY) → o !! k = None) ∧
  ((∃ x y, 0 ≤ x < MX ∧ 0 ≤ y < MY ∧ empty_at x y) →
     log = cerr ++ ["get_output() called on contradicted wfc(overlap)"%string]) ∧
  ((∀ x y, 0 ≤ x < MX → 0 ≤ y < MY → ¬ empty_at x y) → log = cerr).
Proof.
  unfold get_output. intros Hrun.
  destruct (for_each _ _ _) as [st|] eqn:Hrows; [|done].
  cbn [mbind option_bind] in Hrun. injection Hrun as <- <-.
  apply output_rows_spec in Hrows as (Hin & Hout & Hsus); [|apply NoDup_seqZ].
  cbn [out sus] in *. split_and!.
  - intros x y Hx Hy. apply Hin; [done|]. apply elem_of_seqZ. lia.
  - intros k Hk. rewrite Hout; [done|]. rewrite elem_of_seqZ. lia.
  - intros (x & y & Hx & Hy & He).
    assert (sus st = true) as ->; [|done].
    apply Hsus. right. exists x, y. split_and!; [lia..| |done].
    apply elem_of_seqZ. lia.
  - intros Hnone. destruct (sus st) eqn:Hs; [|done].
    destruct (proj1 Hsus eq_refl) as [?|(x & y & Hx & Hy%elem_of_seqZ & He)];
      [done|].
    destruct (Hnone x y); [lia..|done].
Qed.

Lemma get_output_total cerr :
  (∀ x y, 0 ≤ x < MX → 0 ≤ y < MY →
     is_Some (decode_pixel wave_get t N MX MY x y)) →
  is_Some (get_output wave_get t N MX MY cerr).
Proof.
  intros Hall. unfold get_output.
  assert (is_Some (for_each (output_row wave_get t N MX MY)
                     {| out := ∅; sus := false |} (seqZ 0 MY))) as [st ->].
  { apply output_rows_total.
    intros x y Hx Hy%elem_of_seqZ. apply Hall; lia. }
  by eexists.
Qed.
End Decoder.

(** ** The pixels of the output *)

Lemma at_index_Some {A} (v : list A) i a :
  at_index v i = Some a ↔ 0 ≤ i ∧ v !! Z.to_nat i = Some a.
Proof. unfold at_index. case_decide; [tauto|]. split; [done|lia]. Qed.

Lemma at_index_is_Some {A} (v : list A) i :
  0 ≤ i < Z.of_nat (length v) → is_Some (at_index v i).
Proof.
  intros Hi. unfold at_index. rewrite decide_True by lia.
  apply lookup_lt_is_Some_2. lia.
Qed.

Lemma decoder_offset_cases N MX x :
  decoder_offset N MX x = 0 ∨ decoder_offset N MX x = N - 1.
Proof. unfold decoder_offset. case_decide; auto. Qed.

Lemma decoder_offset_wave N MX x :
  0 < N → N - 1 ≤ MX < 2 ^ 64 →
  decoder_offset N MX x = if decide (x < MX - N + 1) then 0 else N - 1.
Proof. intros HN H. unfold decoder_offset. by rewrite wrap_small by lia. Qed.

(** For an output that is not periodic and sizes that fit their types,
    the bound [MX - N + 1] of the decoder is the width of the wave. *)
Lemma wave_width_decoder opts :
  periodic_output opts = false →
  0 < pattern_size opts → pattern_size opts - 1 ≤ o_W opts < 2 ^ 32 →
  get_wave_width opts = o_W opts - pattern_size opts + 1 ∧
  ∀ x, decoder_offset (pattern_size opts) (o_W opts) x =
       if decide (x < get_wave_width opts) then 0 else pattern_size opts - 1.
Proof.
  intros Hper HN HW. unfold get_wave_width, decoder_offset. rewrite Hper.
  assert (2 ^ 32 < 2 ^ 64) by done.
  rewrite wrap_small by lia. rewrite Z.mod_small by lia. done.
Qed.

Lemma decoder_cell_wrap MX x y dx dy :
  decoder_cell MX x y dx dy = Size.wrap ((x - dx) + (y - dy) * MX).
Proof.
  unfold decoder_cell, Size.add, Size.sub, Size.mul, Size.wrap.
  assert (Size.modulus ≠ 0) by (unfold Size.modulus; lia).
  rewrite Z.mul_mod_idemp_l by done.
  by rewrite <- Z.add_mod by done.
Qed.

Lemma rgb_bytes color :
  rgb color = ((color / 2 ^ 16) mod 2 ^ 8, (color / 2 ^ 8) mod 2 ^ 8,
               color mod 2 ^ 8).
Proof.
  unfold rgb, u8. change 255 with (Z.ones 8).
  rewrite !Z.land_ones, !Z.shiftr_div_pow2 by lia.
  change 256 with (2 ^ 8). by rewrite !Z.mod_mod by lia.
Qed.

Lemma decode_pixel_total wave_get t N MX MY x y :
  0 < N → readable N t →
  is_Some (decode_pixel wave_get t N MX MY x y).
Proof.
  intros HN (HP & Hlen & Hpats). unfold decode_pixel.
  set (dx := decoder_offset N MX x). set (dy := decoder_offset N MY y).
  pose proof (observed_range wave_get t (decoder_cell MX x y dx dy) HP) as Hob.
  destruct (at_index_is_Some (patterns t) (observed wave_get t
              (decoder_cell MX x y dx dy))) as [pattern Hpat]; [lia|].
  rewrite Hpat. cbn [mbind option_bind].
  apply at_index_Some in Hpat as [_ Hpat].
  destruct (Forall_lookup_1 _ _ _ _ Hpats Hpat) as [Hl Hd].
  assert (0 ≤ dx + dy * N < N * N) as Hidx.
  { destruct (decoder_offset_cases N MX x) as [Hx|Hx],
             (decoder_offset_cases N MY y) as [Hy|Hy];
      subst dx dy; rewrite Hx, Hy; nia. }
  destruct (at_index_is_Some pattern (dx + dy * N)) as [ci Hci]; [nia|].
  rewrite Hci. cbn [mbind option_bind].
  apply at_index_Some in Hci as [_ Hci].
  pose proof (Forall_lookup_1 _ _ _ _ Hd Hci) as Hrange. simpl in Hrange.
  destruct (at_index_is_Some (colors t) ci) as [color Hcolor]; [lia|].
  rewrite Hcolor. by eexists.
Qed.

(** C8, as the source has it.  For every pixel [(x, y)] of the output,
    with [W = MX - N + 1] and [H = MY - N + 1] the width and height of the
    wave of a non-periodic output of [MX × MY] pixels: [dx = 0] if [x < W]
    else [N - 1], [dy] likewise; the decoder reads the cell
    [(x - dx, y - dy)], of index [x - dx + (y - dy) * MX] in [size_t]
    arithmetic, which for a pixel beyond the wave is the cell [N - 1]
    before it; the pixel is the palette entry of
    [patterns[p][dx + dy * N]], for [p] the pattern shown for that cell,
    split into R, the high byte of the packed 24-bit colour, G, the middle
    byte, and B, the low byte. *)
Theorem get_output_pixel (wave_get : Z → Z → bool) (t : tables)
    (N MX MY : Z) (cerr : list string)
    (o : gmap (Z * Z) (Z * Z * Z)) (log : list string) (x y : Z) :
  0 < N → N - 1 ≤ MX < 2 ^ 64 → N - 1 ≤ MY < 2 ^ 64 →
  get_output wave_get t N MX MY cerr = Some (o, log) →
  0 ≤ x < MX → 0 ≤ y < MY →
  let dx := if decide (x < MX - N + 1) then 0 else N - 1 in
  let dy := if decide (y < MY - N + 1) then 0 else N - 1 in
  let p := observed wave_get t (Size.wrap ((x - dx) + (y - dy) * MX)) in
  ∃ pattern colorIndex color,
    at_index (patterns t) p = Some pattern ∧
    at_index pattern (dx + dy * N) = Some colorIndex ∧
    at_index (colors t) colorIndex = Some color ∧
    o !! (x, y) = Some ((color / 2 ^ 16) mod 2 ^ 8,
                        (color / 2 ^ 8) mod 2 ^ 8,
                        color mod 2 ^ 8).
Proof.
  intros HN HMX HMY Hrun Hx Hy dx dy p.
  apply get_output_spec in Hrun as (Hin & _).
  destruct (Hin x y Hx Hy) as [[v Hv] Hlook]. rewrite Hlook, Hv.
  unfold decode_pixel in Hv.
  rewrite !decoder_offset_wave, decoder_cell_wrap in Hv by done.
  fold dx dy p in Hv.
  destruct (at_index (patterns t) p) as [pattern|] eqn:Hpat; [|done].
  cbn [mbind option_bind] in Hv.
  destruct (at_index pattern (dx + dy * N)) as [colorIndex|] eqn:Hci; [|done].
  cbn [mbind option_bind] in Hv.
  destruct (at_index (colors t) colorIndex) as [color|] eqn:Hcolor; [|done].
  cbn [mbind option_bind] in Hv. injection Hv as <-.
  exists pattern, colorIndex, color. by rewrite rgb_bytes.
Qed.

Lemma nine_init :
  init 9 nine_options 3 DX DY nine_exemplar [] = Some nine_tables.
Proof. vm_compute. reflexivity. Qed.

Lemma nine_output :
  ∃ o, get_output (λ _ _, true) nine_tables 3 5 5 [] = Some (o, []) ∧
       o !! (3, 3) = Some (8, 16, 24).
Proof. eexists. split; [vm_compute; reflexivity|]. vm_compute. reflexivity. Qed.

Lemma get_output_pixel_witness :
  ∃ o log, get_output (λ _ _, true) nine_tables 3 5 5 [] = Some (o, log) ∧
  ∃ pattern colorIndex color,
    at_index (patterns nine_tables)
             (observed (λ _ _, true) nine_tables
                       (Size.wrap ((3 - 2) + (0 - 0) * 5))) = Some pattern ∧
    at_index pattern (2 + 0 * 3) = Some colorIndex ∧
    at_index (colors nine_tables) colorIndex = Some color ∧
    o !! (3, 0) = Some ((color / 2 ^ 16) mod 2 ^ 8,
                        (color / 2 ^ 8) mod 2 ^ 8,
                        color mod 2 ^ 8).
Proof.
  destruct (get_output (λ _ _, true) nine_tables 3 5 5 []) as [[o log]|] eqn:Hrun.
  - exists o, log. split; [reflexivity|].
    apply (get_output_pixel (λ _ _, true) nine_tables 3 5 5 [] o log 3 0);
      [lia|lia|lia|exact Hrun|lia|lia].
  - vm_compute in Hrun. discriminate Hrun.
Defined.

(** The claim fails on the source.  On the table that [init] builds from
    the nine-colour exemplar and a wave in which every pattern is still
    possible: in a 5×5 output of 3×3 patterns the wave is 3 cells wide and
    high and the pixel [(3, 3)] lies beyond it;
    the source reads the cell [(1, 1)] at offset [(2, 2)], colour index 8,
    and not the last valid cell [(2, 2)] at offset [(1, 1)], colour
    index 4. *)
Lemma get_output_not_last_cell :
  init 9 nine_options 3 DX DY nine_exemplar [] = Some nine_tables ∧
  5 - 3 + 1 ≤ 3 ∧
  decoder_offset 3 5 3 = 2 ∧ last_cell_offset (5 - 3 + 1) 3 = 1 ∧
  ∃ o log, get_output (λ _ _, true) nine_tables 3 5 5 [] = Some (o, log) ∧
    o !! (3, 3) = Some (8, 16, 24) ∧
    last_cell_pixel (λ _ _, true) nine_tables 3 5 5 3 3 = Some (4, 8, 12) ∧
    o !! (3, 3) ≠ last_cell_pixel (λ _ _, true) nine_tables 3 5 5 3 3.
Proof.
  split_and!; [apply nine_init|lia|reflexivity|reflexivity|].
  destruct nine_output as (o & Hrun & Hpix).
  exists o, []. split_and!; [done|done|reflexivity|].
  rewrite Hpix. by vm_compute.
Qed.

(** C9, as the source has it.  For every wave, on a table that can be
    read, which has at least one pattern ([P ≥ 1]): [get_output]
    returns a colour for every pixel of the grid; and when the cell read
    for some pixel has no pattern left, pattern 0 stands in for it, the
    flag [sus] is raised and the line "get_output() called on
    contradicted wfc(overlap)" goes to [std::cerr], the grid being
    returned all the same. *)
Theorem get_output_contradicted (wave_get : Z → Z → bool) (t : tables)
    (N MX MY : Z) (cerr : list string) :
  0 < N → readable N t →
  ∃ o log,
    get_output wave_get t N MX MY cerr = Some (o, log) ∧
    (∀ x y, 0 ≤ x < MX → 0 ≤ y < MY → is_Some (o !! (x, y))) ∧
    (∀ x y, 0 ≤ x < MX → 0 ≤ y < MY →
       let dx := decoder_offset N MX x in
       let dy := decoder_offset N MY y in
       cell_empty wave_get t (decoder_cell MX x y dx dy) →
       observed wave_get t (decoder_cell MX x y dx dy) = 0 ∧
       (∃ pattern colorIndex color,
          at_index (patterns t) 0 = Some pattern ∧
          at_index pattern (dx + dy * N) = Some colorIndex ∧
          at_index (colors t) colorIndex = Some color ∧
          o !! (x, y) = Some (rgb color)) ∧
       log = cerr ++ ["get_output() called on contradicted wfc(overlap)"%string]).
Proof.
  intros HN Hread.
  destruct (get_output_total wave_get t N MX MY cerr) as [[o log] Hrun].
  { intros x y _ _. by apply decode_pixel_total. }
  exists o, log. split; [done|].
  apply get_output_spec in Hrun as (Hin & _ & Hsus & _).
  split.
  - intros x y Hx Hy. destruct (Hin x y Hx Hy) as [Hs ->]. done.
  - intros x y Hx Hy dx dy Hempty.
    assert (0 ≤ P t) as HP by (destruct Hread; lia).
    pose proof (observed_empty _ _ _ HP Hempty) as Hob.
    split_and!; [done| |].
    + destruct (Hin x y Hx Hy) as [[v Hv] Hlook]. rewrite Hlook, Hv.
      unfold decode_pixel in Hv. fold dx dy in Hv. rewrite Hob in Hv.
      destruct (at_index (patterns t) 0) as [pattern|] eqn:Hpat; [|done].
      cbn [mbind option_bind] in Hv.
      destruct (at_index pattern (dx + dy * N)) as [colorIndex|] eqn:Hci; [|done].
      cbn [mbind option_bind] in Hv.
      destruct (at_index (colors t) colorIndex) as [color|] eqn:Hcolor; [|done].
      cbn [mbind option_bind] in Hv. injection Hv as <-.
      by exists pattern, colorIndex, color.
    + apply Hsus. exists x, y. split_and!; [lia..|].
      by apply first_possible_empty.
Qed.

Lemma nine_readable : readable 3 nine_tables.
Proof.
  split_and!; [done..|]. apply Forall_singleton. split; [done|].
  repeat constructor; simpl; lia.
Qed.

Lemma get_output_contradicted_witness :
  ∃ o log,
    get_output (λ cell _, bool_decide (cell ≠ 7)) nine_tables 3 5 5 []
      = Some (o, log) ∧
    is_Some (o !! (2, 1)) ∧
    log = ["get_output() called on contradicted wfc(overlap)"%string].
Proof.
  destruct (get_output_contradicted (λ cell _, bool_decide (cell ≠ 7))
              nine_tables 3 5 5 []) as (o & log & Hrun & Hgrid & Hsus).
  - lia.
  - exact nine_readable.
  - exists o, log. split_and!; [exact Hrun|apply Hgrid; lia|].
    apply (Hsus 2 1); [lia|lia|]. intros p Hp. reflexivity.
Defined.

(** The claim fails on the source at a table without a pattern, which
    [init] returns for an exemplar smaller than the pattern: no cell has
    a possible pattern, the decoder takes pattern 0 in its place, and
    [patterns[0]] is a read outside the empty vector [patterns]: no grid
    is returned. *)
Lemma get_output_empty_table_no_grid :
  init 0 small_options 2 DX DY [7] [] = Some small_tables ∧
  (∀ wave_get cell, cell_empty wave_get small_tables cell) ∧
  (∀ wave_get cell, observed wave_get small_tables cell = 0) ∧
  at_index (patterns small_tables) 0 = None ∧
  get_output (λ _ _, true) small_tables 2 4 4 [] = None.
Proof.
  split_and!; try reflexivity.
  intros wave_get cell p Hp. simpl in Hp. lia.
Qed.

(** ** What [patternFromIndex] writes *)

Lemma patternFromIndex_loop_bounds fuel C n : ∀ i residue power result r,
  0 < C → power = C ^ Z.of_nat n → power < 2 ^ 64 → 0 ≤ residue < power →
  (i + n ≤ length result)%nat →
  patternFromIndex_loop fuel C n i residue power result = Some r →
  length r = length result ∧
  ∀ j d, r !! j = Some d →
    if decide (i ≤ j < i + n)%nat then 0 ≤ d < C else result !! j = Some d.
Proof.
  induction n as [|n IH]; intros i residue power result r HC Hpow Hfit Hres Hlen Hrun.
  { simpl in Hrun. injection Hrun as <-. split; [done|].
    intros j d Hj. by rewrite decide_False by lia. }
  cbn [patternFromIndex_loop] in Hrun. rewrite decide_False in Hrun by lia.
  assert (Hsucc : power = C * C ^ Z.of_nat n).
  { subst power. replace (Z.of_nat (S n)) with (Z.succ (Z.of_nat n)) by lia.
    by rewrite Z.pow_succ_r by lia. }
  assert (Hpn : 0 < C ^ Z.of_nat n) by (apply Z.pow_pos_nonneg; lia).
  assert (Hdiv : power / C = C ^ Z.of_nat n).
  { rewrite Hsucc, Z.mul_comm, Z.div_mul by lia. done. }
  rewrite Hdiv in Hrun.
  assert (Hq : 0 ≤ residue / C ^ Z.of_nat n < C).
  { split; [apply Z.div_pos; lia|]. apply Z.div_lt_upper_bound; lia. }
  assert (HCp : C ≤ power) by nia.
  rewrite count_loop_spec in Hrun by lia.
  case_decide as Hfuel; [|done]. rewrite Z.add_0_l in Hrun.
  pose proof (Z.mod_pos_bound residue (C ^ Z.of_nat n) Hpn) as Hmod.
  apply IH in Hrun as [Hlr Hall]; try done; try lia.
  2: { rewrite length_insert. lia. }
  rewrite length_insert in Hlr. split; [done|].
  intros j d Hj. specialize (Hall j d Hj).
  destruct (decide (j = i)) as [->|Hne].
  - rewrite decide_False in Hall by lia. rewrite decide_True by lia.
    rewrite list_lookup_insert_eq in Hall by lia. injection Hall as <-.
    unfold u8. pose proof (Z.mod_pos_bound (residue / C ^ Z.of_nat n) 256).
    pose proof (Z.mod_le (residue / C ^ Z.of_nat n) 256). lia.
  - destruct (decide (S i ≤ j < S i + n)%nat).
    + by rewrite decide_True by lia.
    + rewrite decide_False by lia. by rewrite list_lookup_insert_ne in Hall.
Qed.

Lemma patternFromIndex_bounds fuel N C ind result r :
  0 < N → 0 < C → C ^ (N * N) < 2 ^ 64 → 0 ≤ ind < C ^ (N * N) →
  length result = Z.to_nat (N * N) →
  patternFromIndex fuel C (compute_W N C) ind result = Some r →
  length r = Z.to_nat (N * N) ∧ Forall (λ d, 0 ≤ d < C) r.
Proof.
  intros HN HC Hfit Hind Hlen Hrun. unfold patternFromIndex in Hrun.
  assert (HNN : Z.of_nat (Z.to_nat (N * N)) = N * N) by nia.
  rewrite compute_W_spec, HNN, wrap_small in Hrun by lia.
  apply patternFromIndex_loop_bounds in Hrun as [Hlr Hall];
    try done; try lia; [|by rewrite Hlen, HNN].
  split; [lia|]. apply Forall_lookup. intros j d Hj.
  specialize (Hall j d Hj). rewrite decide_True in Hall; [done|].
  apply lookup_lt_Some in Hj. lia.
Qed.

(** C10, as the source has it.  When [C^(N*N)] fits in a [size_t], every
    entry that [patternFromIndex] writes for a fingerprint
    [0 ≤ ind < C^(N*N)] is below the palette size [C = colors.size()].
    Consequently, on a table of [P ≥ 1] patterns written that way and for
    any wave, the reads [patterns[ob][dx + dy * N]] and
    [colors[colorIndex]] of [get_output] are inside their vectors: every
    pixel is decoded and [get_output] returns. *)
Theorem get_output_in_bounds (N : Z) (t : tables) :
  let C := Z.of_nat (length (colors t)) in
  0 < N → C ^ (N * N) < 2 ^ 64 →
  0 < P t → Z.of_nat (length (patterns t)) = P t →
  (∀ p, p ∈ patterns t →
     ∃ fuel ind result,
       0 ≤ ind < C ^ (N * N) ∧ length result = Z.to_nat (N * N) ∧
       patternFromIndex fuel C (compute_W N C) ind result = Some p) →
  Forall (Forall (λ d, 0 ≤ d < C)) (patterns t) ∧
  ∀ (wave_get : Z → Z → bool) (MX MY : Z) (cerr : list string),
    (∀ x y, ∃ pattern colorIndex color,
       at_index (patterns t)
                (observed wave_get t
                   (decoder_cell MX x y (decoder_offset N MX x)
                                 (decoder_offset N MY y))) = Some pattern ∧
       at_index pattern (decoder_offset N MX x + decoder_offset N MY y * N)
         = Some colorIndex ∧
       at_index (colors t) colorIndex = Some color) ∧
    is_Some (get_output wave_get t N MX MY cerr).
Proof.
  intros C HN Hfit HP Hlen Hwritten.
  assert (Hpats : Forall (λ p, length p = Z.to_nat (N * N) ∧
                               Forall (λ d, 0 ≤ d < C) p) (patterns t)).
  { apply Forall_forall. intros p Hp.
    destruct (Hwritten p Hp) as (fuel & ind & result & Hind & Hres & Hrun).
    assert (0 < C).
    { destruct (decide (C = 0)) as [HC0|]; [|lia].
      rewrite HC0, Z.pow_0_l in Hind by nia. lia. }
    by eapply patternFromIndex_bounds. }
  assert (Hread : readable N t) by done.
  split.
  - eapply Forall_impl; [exact Hpats|]. by intros p [_ ?].
  - intros wave_get MX MY cerr. split.
    + intros x y.
      destruct (decode_pixel_total wave_get t N MX MY x y HN Hread) as [v Hv].
      unfold decode_pixel in Hv.
      destruct (at_index (patterns t) _) as [pattern|] eqn:Hpat; [|done].
      cbn [mbind option_bind] in Hv.
      destruct (at_index pattern _) as [colorIndex|] eqn:Hci; [|done].
      cbn [mbind option_bind] in Hv.
      destruct (at_index (colors t) colorIndex) as [color|] eqn:Hcolor; [|done].
      by exists pattern, colorIndex, color.
    + apply get_output_total. intros x y _ _. by apply decode_pixel_total.
Qed.

Lemma get_output_in_bounds_witness :
  Forall (Forall (λ d, 0 ≤ d < 2)) (patterns example_tables) ∧
  is_Some (get_output (λ _ _, false) example_tables 2 4 4 []).
Proof.
  destruct (get_output_in_bounds 2 example_tables) as [Hentries Hreads].
  - lia.
  - reflexivity.
  - reflexivity.
  - reflexivity.
  - intros p Hp. exists 2%nat, (fingerprint 2 p), [0; 0; 0; 0].
    apply elem_of_cons in Hp as [->|Hp];
      [|apply list_elem_of_singleton in Hp as ->];
      (split_and!; [by vm_compute|by vm_compute|reflexivity|reflexivity]).
  - split; [exact Hentries|]. apply Hreads.
Defined.

(** The claim fails on the source at a table without a pattern, which
    [init] returns for an exemplar smaller than the pattern: every entry
    of the table (there is none) is below the palette size and
    [C^(N*N) = 1] fits, and yet the read [patterns[ob]] of [get_output],
    with [ob = 0] for the pixel [(0, 0)], is outside the vector. *)
Lemma patterns_read_out_of_bounds :
  init 0 small_options 2 DX DY [7] [] = Some small_tables ∧
  Z.of_nat (length (colors small_tables)) ^ (2 * 2) < 2 ^ 64 ∧
  Forall (Forall (λ d, 0 ≤ d < Z.of_nat (length (colors small_tables))))
         (patterns small_tables) ∧
  ∀ wave_get : Z → Z → bool,
    at_index (patterns small_tables)
             (observed wave_get small_tables
                (decoder_cell 4 0 0 (decoder_offset 2 4 0) (decoder_offset 2 4 0)))
    = None.
Proof. split_and!; try reflexivity; try (by vm_compute); try constructor. Qed.

(** * Further properties of the source *)

(** ** Fingerprints and [patternFromIndex] *)

Lemma fingerprint_collision_free (N C : Z) (p q : list Z) :
  is_pattern N C p → is_pattern N C q →
  C ^ (N * N) < 2 ^ 64 →
  p ≠ q → fingerprint C p = fingerprint C q → False.
Proof.
  intros [Hlp Hp] [Hlq Hq] Hfit Hne Heq.
  assert (HNN : Z.of_nat (Z.to_nat (N * N)) = N * N) by nia.
  assert (Hfp : C ^ Z.of_nat (length p) < 2 ^ 64) by (by rewrite Hlp, HNN).
  assert (Hfq : C ^ Z.of_nat (length q) < 2 ^ 64) by (by rewrite Hlq, HNN).
  apply Hne.
  assert (Hdp : patternFromIndex (Z.to_nat C) C (C ^ Z.of_nat (length p))
                  (fingerprint C p) p = Some p).
  { apply patternFromIndex_fingerprint; (done || lia). }
  assert (Hdq : patternFromIndex (Z.to_nat C) C (C ^ Z.of_nat (length q))
                  (fingerprint C q) p = Some q).
  { apply patternFromIndex_fingerprint; (done || lia). }
  rewrite Hlp in Hdp. rewrite Hlq, <- Heq in Hdq. congruence.
Qed.

(** X1.  Without overflow the fingerprint has no collision: two different
    patterns of [N * N] palette indices have different fingerprints, both
    below [C^(N*N)]. *)
Theorem fingerprint_no_collision (N C : Z) (p q : list Z) :
  is_pattern N C p → is_pattern N C q →
  C ^ (N * N) < 2 ^ 64 →
  p ≠ q →
  fingerprint C p ≠ fingerprint C q ∧
  0 ≤ fingerprint C p < C ^ (N * N).
Proof.
  intros Hp Hq Hfit Hne. split.
  - intros Heq. by eapply (fingerprint_collision_free N C p q).
  - destruct Hp as [Hlp Hp].
    assert (HNN : Z.of_nat (Z.to_nat (N * N)) = N * N) by nia.
    rewrite fingerprint_value; [|done|by rewrite Hlp, HNN].
    pose proof (digits_value_bounds C p Hp) as Hb.
    by rewrite Hlp, HNN in Hb.
Qed.

Lemma fingerprint_no_collision_witness :
  fingerprint 3 [2; 0; 1; 2] ≠ fingerprint 3 [2; 0; 2; 1] ∧
  0 ≤ fingerprint 3 [2; 0; 1; 2] < 3 ^ (2 * 2).
Proof.
  apply (fingerprint_no_collision 2 3 [2; 0; 1; 2] [2; 0; 2; 1]).
  - split; [reflexivity|]. repeat constructor; lia.
  - split; [reflexivity|]. repeat constructor; lia.
  - reflexivity.
  - discriminate.
Defined.

(** What the decoding loop returns: the digits of [residue] in base [C],
    written over the entries [i .. i + n - 1] of [result]. *)
Lemma patternFromIndex_loop_value fuel C n : ∀ i residue power result r,
  0 < C ≤ 256 → power = C ^ Z.of_nat n → power < 2 ^ 64 → 0 ≤ residue < power →
  (i + n ≤ length result)%nat →
  patternFromIndex_loop fuel C n i residue power result = Some r →
  ∃ ds, r = take i result ++ ds ++ drop (i + n) result ∧
        length ds = n ∧ Forall (is_digit C) ds ∧ digits_value C ds = residue.
Proof.
  induction n as [|n IH]; intros i residue power result r HC Hpow Hfit Hres Hlen Hrun.
  { simpl in Hrun. injection Hrun as <-. exists []. split_and!; try done.
    - cbn [app]. by rewrite Nat.add_0_r, take_drop.
    - simpl. change (Z.of_nat 0) with 0 in Hpow. rewrite Z.pow_0_r in Hpow. lia. }
  cbn [patternFromIndex_loop] in Hrun. rewrite decide_False in Hrun by lia.
  assert (Hsucc : power = C * C ^ Z.of_nat n).
  { subst power. replace (Z.of_nat (S n)) with (Z.succ (Z.of_nat n)) by lia.
    by rewrite Z.pow_succ_r by lia. }
  assert (Hpn : 0 < C ^ Z.of_nat n) by (apply Z.pow_pos_nonneg; lia).
  assert (Hdiv : power / C = C ^ Z.of_nat n).
  { rewrite Hsucc, Z.mul_comm, Z.div_mul by lia. done. }
  rewrite Hdiv in Hrun.
  assert (Hq : 0 ≤ residue / C ^ Z.of_nat n < C).
  { split; [apply Z.div_pos; lia|]. apply Z.div_lt_upper_bound; lia. }
  assert (HCp : C ≤ power) by nia.
  rewrite count_loop_spec in Hrun by lia.
  case_decide as Hfuel; [|done]. rewrite Z.add_0_l in Hrun.
  pose proof (Z.mod_pos_bound residue (C ^ Z.of_nat n) Hpn) as Hmod.
  set (d := residue / C ^ Z.of_nat n) in *.
  assert (Hu8 : u8 d = d) by (unfold u8; apply Z.mod_small; lia).
  rewrite Hu8 in Hrun.
  apply IH in Hrun as (ds & -> & Hlds & Hds & Hval); try done; try lia.
  2: { rewrite length_insert. lia. }
  assert (Hi : (i < length result)%nat) by lia.
  exists (d :: ds). split_and!.
  - rewrite (take_S_r _ _ d) by (by apply list_lookup_insert_eq).
    rewrite take_insert_ge by lia. rewrite drop_insert_lt by lia.
    rewrite <- app_assoc. cbn [app].
    by replace (S i + n)%nat with (i + S n)%nat by lia.
  - simpl. lia.
  - apply Forall_cons. split; [|done]. unfold is_digit. lia.
  - cbn [digits_value]. rewrite Hlds, Hval. subst d.
    pose proof (Z.div_mod residue (C ^ Z.of_nat n)). lia.
Qed.

(** X2.  Decoding then encoding gives the fingerprint back: for a palette
    of at most 256 colours and [0 ≤ ind < C^(N*N) < 2^64], whatever
    [patternFromIndex] finds in [result], the pattern it returns has
    [N * N] palette indices and its fingerprint is [ind]. *)
Theorem patternFromIndex_then_fingerprint (fuel : nat) (N C ind : Z)
    (result r : list Z) :
  0 < N → 0 < C ≤ 256 → C ^ (N * N) < 2 ^ 64 → 0 ≤ ind < C ^ (N * N) →
  length result = Z.to_nat (N * N) →
  patternFromIndex fuel C (compute_W N C) ind result = Some r →
  is_pattern N C r ∧ fingerprint C r = ind.
Proof.
  intros HN HC Hfit Hind Hlen Hrun. unfold patternFromIndex in Hrun.
  assert (HNN : Z.of_nat (Z.to_nat (N * N)) = N * N) by nia.
  rewrite compute_W_spec, HNN, wrap_small in Hrun by lia.
  apply patternFromIndex_loop_value in Hrun as (ds & -> & Hlds & Hds & Hval);
    try done; try lia; [|by rewrite Hlen, HNN].
  rewrite take_0, drop_ge, app_nil_r by lia. cbn [app].
  split; [split; [congruence|done]|].
  rewrite fingerprint_value; [done|done|]. by rewrite Hlds, Hlen, HNN.
Qed.

Lemma patternFromIndex_then_fingerprint_witness :
  is_pattern 2 3 [2; 0; 1; 2] ∧ fingerprint 3 [2; 0; 1; 2] = 59.
Proof.
  apply (patternFromIndex_then_fingerprint 3 2 3 59 [7; 7; 7; 7] [2; 0; 1; 2]).
  - lia.
  - lia.
  - reflexivity.
  - lia.
  - reflexivity.
  - reflexivity.
Defined.

(** ** [init]: what the table holds *)

Lemma init_overflow_no_result_witness :
  init 100 sixteen_options 4 DX DY sixteen_exemplar [] = None.
Proof.
  apply (init_overflow_no_result 100 sixteen_options 4 DX DY sixteen_exemplar []).
  - lia.
  - vm_compute. reflexivity.
  - vm_compute. discriminate.
  - vm_compute. discriminate.
Defined.


Lemma record_all_order fps :
  Z.of_nat (length fps) < 2 ^ 64 →
  (record_all fps).2 = distinct_in_order fps.
Proof.
  induction fps as [|k fps IH] using rev_ind; intros Hlen; [done|].
  rewrite length_app in Hlen. simpl in Hlen.
  pose proof (record_all_inv fps ltac:(lia)) as Hinv.
  unfold record_all, distinct_in_order in *. rewrite !foldl_snoc.
  rewrite <- IH by lia.
  destruct (foldl record_fingerprint (∅, []) fps) as [wt ord]. cbn [fst snd] in *.
  unfold record_fingerprint. cbn [snd].
  destruct (wt !! k) as [v|] eqn:Hk; cbn [from_option id].
  - pose proof (inv_count _ _ _ Hinv _ _ Hk).
    rewrite (decide_False (P := v = 0)) by lia.
    rewrite (decide_True (P := k ∈ ord)); [done|].
    apply (inv_keys _ _ _ Hinv). eauto.
  - rewrite (decide_True (P := 0 = 0)) by done.
    rewrite (decide_False (P := k ∈ ord)); [done|].
    rewrite (inv_keys _ _ _ Hinv), Hk. by intros [? ?].
Qed.

Lemma multiplicity_snoc {A} `{EqDecision A} (p k : A) (l : list A) :
  multiplicity p (l ++ [k]) = multiplicity p l + (if decide (k = p) then 1 else 0).
Proof.
  unfold multiplicity. rewrite filter_app, length_app, filter_cons, filter_nil.
  case_decide; simpl; lia.
Qed.

Lemma record_all_count fps k :
  Z.of_nat (length fps) < 2 ^ 64 →
  default 0 ((record_all fps).1 !! k) = multiplicity k fps.
Proof.
  induction fps as [|k' fps IH] using rev_ind; intros Hlen; [done|].
  rewrite length_app in Hlen. simpl in Hlen.
  pose proof (record_all_inv fps ltac:(lia)) as Hinv.
  rewrite multiplicity_snoc, <- IH by lia.
  unfold record_all in *. rewrite foldl_snoc.
  destruct (foldl record_fingerprint (∅, []) fps) as [wt ord]. cbn [fst snd] in *.
  assert (Hold : 0 ≤ default 0 (wt !! k') ≤ Z.of_nat (length fps)).
  { destruct (wt !! k') as [v|] eqn:Hk; simpl; [|lia].
    pose proof (inv_count _ _ _ Hinv _ _ Hk). lia. }
  unfold record_fingerprint. cbn [fst].
  unfold Size.add. rewrite wrap_small by lia.
  destruct (decide (k' = k)) as [->|Hne].
  - by rewrite lookup_insert_eq.
  - rewrite lookup_insert_ne by done. lia.
Qed.

Lemma multiplicity_fmap_inj {A B} `{EqDecision A} `{EqDecision B}
    (f : A → B) (p : A) (l : list A) :
  (∀ q, q ∈ l → f q = f p → q = p) →
  multiplicity (f p) (f <$> l) = multiplicity p l.
Proof.
  unfold multiplicity. induction l as [|q l IH]; intros Hinj; [done|].
  rewrite fmap_cons, !filter_cons.
  destruct (decide (f q = f p)) as [Heq|Hne].
  - rewrite decide_True by (apply Hinj; [left|done]).
    cbn [length]. rewrite !Nat2Z.inj_succ, IH; [done|].
    intros q' Hq'. apply Hinj. by right.
  - rewrite decide_False by congruence.
    apply IH. intros q' Hq'. apply Hinj. by right.
Qed.

Section InitTable.
Variables (fuel : nat) (opts : OverlappingWFCOptions) (N : Z)
          (dxs dys data w0 : list Z) (t : tables).
Hypothesis Hinit : init fuel opts N dxs dys data w0 = Some t.
Hypothesis HN : 0 < N.
Hypothesis Hpairs : Z.of_nat (length (pairs_enumerated opts N data)) < 2 ^ 64.

(** The patterns of a table are distinguished by their fingerprints among
    all the enumerated variants. *)
Lemma init_variant_eq j p q :
  patterns t !! j = Some p → q ∈ pairs_enumerated opts N data →
  fingerprint (palette_size data) q = fingerprint (palette_size data) p →
  q = p.
Proof.
  intros Hj Hq Heq.
  destruct (init_pattern_variant _ _ _ _ _ _ _ _ Hinit HN Hpairs j p Hj)
    as [Hp Hord].
  destruct (init_no_overflow _ _ _ _ _ _ _ _ Hinit HN Hpairs) as (HC & Hfit & _).
  { intros Hnil. by rewrite Hnil in Hord. }
  assert (Hpat : Forall (is_pattern N (palette_size data))
                        (pairs_enumerated opts N data)).
  { apply enumerated_patterns; [done|]. apply ords_digits. }
  destruct (decide (q = p)) as [|Hne]; [done|]. exfalso.
  eapply fingerprint_collision_free; [| |exact Hfit|exact Hne|exact Heq];
    eapply Forall_forall; eauto.
Qed.
End InitTable.

(** X5.  The pattern table is in first-seen order: the fingerprints of
    [patterns[0]], [patterns[1]], ... are the fingerprints met by the scan
    of the exemplar, each kept at its first occurrence. *)
Theorem init_first_seen_order (fuel : nat) (opts : OverlappingWFCOptions) (N : Z)
    (dxs dys data w0 : list Z) (t : tables) :
  0 < N →
  Z.of_nat (length (pairs_enumerated opts N data)) < 2 ^ 64 →
  init fuel opts N dxs dys data w0 = Some t →
  fingerprint (palette_size data) <$> patterns t
  = distinct_in_order (fingerprints_enumerated opts N data).
Proof.
  intros HN Hpairs Hinit.
  rewrite <- record_all_order
    by (unfold fingerprints_enumerated; by rewrite length_fmap).
  pose proof (init_lengths _ _ _ _ _ _ _ _ Hinit Hpairs) as [Hlp _].
  apply list_eq. intros j. rewrite list_lookup_fmap.
  destruct (patterns t !! j) as [r|] eqn:Hr; simpl.
  - symmetry. by eapply init_pattern_variant.
  - symmetry. apply lookup_ge_None. apply lookup_ge_None in Hr. lia.
Qed.

Lemma init_first_seen_order_witness :
  fingerprint (palette_size example_exemplar) <$> patterns example_tables
  = distinct_in_order (fingerprints_enumerated example_options 2 example_exemplar).
Proof.
  apply (init_first_seen_order 2 example_options 2 DX DY example_exemplar []).
  - lia.
  - vm_compute. reflexivity.
  - vm_compute. reflexivity.
Defined.

(** X6.  Every weight is the multiplicity of its pattern: [weights[j]] is
    the number of enumerated (origin, variant) pairs whose window equals
    [patterns[j]]. *)
Theorem init_weight_multiplicity (fuel : nat) (opts : OverlappingWFCOptions)
    (N : Z) (dxs dys data w0 : list Z) (t : tables) (j : nat) (p : list Z) :
  0 < N →
  Z.of_nat (length (pairs_enumerated opts N data)) < 2 ^ 64 →
  init fuel opts N dxs dys data w0 = Some t →
  patterns t !! j = Some p →
  weights t !! j = Some (multiplicity p (pairs_enumerated opts N data)).
Proof.
  intros HN Hpairs Hinit Hj.
  destruct (init_pattern_variant _ _ _ _ _ _ _ _ Hinit HN Hpairs j p Hj)
    as [Hp Hord].
  destruct (init_entry _ _ _ _ _ _ _ _ Hinit Hpairs j _ Hord)
    as (r & _ & _ & Hw).
  rewrite Hw. f_equal.
  rewrite record_all_count
    by (unfold fingerprints_enumerated; by rewrite length_fmap).
  unfold fingerprints_enumerated. apply multiplicity_fmap_inj.
  intros q Hq Heq. by eapply init_variant_eq.
Qed.

Lemma init_weight_multiplicity_witness :
  weights example_tables !! 1%nat
  = Some (multiplicity [0; 1; 0; 1]
            (pairs_enumerated example_options 2 example_exemplar)).
Proof.
  apply (init_weight_multiplicity 2 example_options 2 DX DY example_exemplar []
           example_tables 1 [0; 1; 0; 1]).
  - lia.
  - vm_compute. reflexivity.
  - vm_compute. reflexivity.
  - reflexivity.
Defined.

(** X7.  The table holds exactly the windows met: a pattern is in
    [patterns] if and only if it is the window of some enumerated (origin,
    variant) pair. *)
Theorem init_table_complete (fuel : nat) (opts : OverlappingWFCOptions) (N : Z)
    (dxs dys data w0 : list Z) (t : tables) (p : list Z) :
  0 < N →
  Z.of_nat (length (pairs_enumerated opts N data)) < 2 ^ 64 →
  init fuel opts N dxs dys data w0 = Some t →
  p ∈ patterns t ↔ p ∈ pairs_enumerated opts N data.
Proof.
  intros HN Hpairs Hinit. split.
  - intros [j Hj]%list_elem_of_lookup. by eapply init_pattern_variant.
  - intros Hp.
    pose proof (init_scan_inv opts N data Hpairs) as Hinv.
    assert (fingerprint (palette_size data) p
            ∈ (record_all (fingerprints_enumerated opts N data)).2) as Hin.
    { apply (inv_seen _ _ _ Hinv). unfold fingerprints_enumerated.
      by apply list_elem_of_fmap_2. }
    apply list_elem_of_lookup in Hin as [j Hj].
    destruct (init_entry _ _ _ _ _ _ _ _ Hinit Hpairs j _ Hj)
      as (r & _ & Hr & _).
    destruct (init_pattern_variant _ _ _ _ _ _ _ _ Hinit HN Hpairs j r Hr)
      as [_ Hord].
    assert (p = r) as ->.
    { eapply init_variant_eq; eauto. congruence. }
    by eapply list_elem_of_lookup_2.
Qed.

Lemma init_table_complete_witness :
  [0; 1; 0; 1] ∈ patterns example_tables ↔
  [0; 1; 0; 1] ∈ pairs_enumerated example_options 2 example_exemplar.
Proof.
  apply (init_table_complete 2 example_options 2 DX DY example_exemplar []).
  - lia.
  - vm_compute. reflexivity.
  - vm_compute. reflexivity.
Defined.

(** X9.  [init] then [get_output]: on a table with at least one pattern
    that [init] has returned, the decoder reads inside [patterns], inside
    the pattern and inside [colors] for every pixel and every wave, and
    returns. *)
Theorem init_then_get_output (fuel : nat) (opts : OverlappingWFCOptions) (N : Z)
    (dxs dys data w0 : list Z) (t : tables)
    (wave_get : Z → Z → bool) (MX MY : Z) (cerr : list string) :
  0 < N →
  Z.of_nat (length (pairs_enumerated opts N data)) < 2 ^ 64 →
  init fuel opts N dxs dys data w0 = Some t →
  0 < P t →
  readable N t ∧ is_Some (get_output wave_get t N MX MY cerr).
Proof.
  intros HN Hpairs Hinit HP.
  pose proof (init_lengths _ _ _ _ _ _ _ _ Hinit Hpairs) as [Hlp _].
  pose proof (init_P _ _ _ _ _ _ _ _ Hinit Hpairs) as HPt.
  destruct (init_unfold _ _ _ _ _ _ _ _ Hinit) as (Hcol & _).
  destruct (init_no_overflow _ _ _ _ _ _ _ _ Hinit HN Hpairs) as (HC & _).
  { intros Hnil. rewrite Hnil in HPt. simpl in HPt. lia. }
  assert (Hread : readable N t).
  { split_and!; [done|lia|]. apply Forall_lookup. intros j p Hj.
    destruct (init_pattern_variant _ _ _ _ _ _ _ _ Hinit HN Hpairs j p Hj)
      as [Hp _].
    assert (is_pattern N (palette_size data) p) as [Hl Hd].
    { eapply Forall_forall; [|exact Hp].
      apply enumerated_patterns; [done|]. apply ords_digits. }
    split; [done|]. rewrite Hcol. fold (palette_size data).
    eapply Forall_impl; [exact Hd|]. by intros d [? _]. }
  split; [done|].
  apply get_output_total. intros x y _ _. by apply decode_pixel_total.
Qed.

Lemma init_then_get_output_witness :
  readable 2 example_tables ∧
  is_Some (get_output (λ _ _, false) example_tables 2 4 4 []).
Proof.
  apply (init_then_get_output 2 example_options 2 DX DY example_exemplar []).
  - lia.
  - vm_compute. reflexivity.
  - vm_compute. reflexivity.
  - reflexivity.
Defined.

(** Two runs of the filling loop over the same [ordering], from vectors of
    its length, agree: every entry is overwritten. *)
Lemma fill_tables_overwrites fuel C W wt ord pats0 wts1 wts2 pats1 wts1' :
  length pats0 = length ord → length wts1 = length ord →
  length wts2 = length ord →
  fill_tables fuel C W wt ord 0 pats0 wts1 = Some (pats1, wts1') →
  fill_tables fuel C W wt ord 0 pats0 wts2 = Some (pats1, wts1').
Proof.
  intros Hlp Hl1 Hl2 Hrun.
  destruct (fill_tables_spec _ _ _ _ _ _ _ _ _ _ Hrun) as (Hp1 & Hw1 & _ & Hat1).
  destruct (fill_tables_total fuel C W wt ord 0 pats0 wts2) as [[pats2 wts2'] Hrun2].
  { simpl. lia. }
  { intros j w Hj. destruct (Hat1 j w Hj) as (res0 & r & H1 & H2 & _). eauto. }
  destruct (fill_tables_spec _ _ _ _ _ _ _ _ _ _ Hrun2) as (Hp2 & Hw2 & _ & Hat2).
  rewrite Hrun2. f_equal. f_equal.
  - apply list_eq. intros j. destruct (ord !! j) as [w|] eqn:Hj.
    + destruct (Hat1 j w Hj) as (res0 & r & H1 & H2 & H3 & _).
      destruct (Hat2 j w Hj) as (res0' & r' & H1' & H2' & H3' & _).
      simpl in *. congruence.
    + apply lookup_ge_None in Hj.
      rewrite !(proj2 (lookup_ge_None _ _)); [done|lia..].
  - apply list_eq. intros j. destruct (ord !! j) as [w|] eqn:Hj.
    + destruct (Hat1 j w Hj) as (_ & _ & _ & _ & _ & H4).
      destruct (Hat2 j w Hj) as (_ & _ & _ & _ & _ & H4').
      simpl in *. congruence.
    + apply lookup_ge_None in Hj.
      rewrite !(proj2 (lookup_ge_None _ _)); [done|lia..].
Qed.

(** X8.  [init] overwrites every weight: the table it returns does not
    depend on what [weights] held before the call. *)
Theorem init_ignores_old_weights (fuel : nat) (opts : OverlappingWFCOptions)
    (N : Z) (dxs dys data w0 w0' : list Z) (t : tables) :
  Z.of_nat (length (pairs_enumerated opts N data)) < 2 ^ 64 →
  init fuel opts N dxs dys data w0 = Some t →
  init fuel opts N dxs dys data w0' = Some t.
Proof.
  intros Hpairs Hinit.
  pose proof (inv_size _ _ _ (init_scan_inv opts N data Hpairs)) as Hsize.
  unfold fingerprints_enumerated, pairs_enumerated, palette_size, sample_of in Hsize.
  unfold init in *. destruct (ords data) as [sample palette]. cbn [fst snd] in *.
  destruct (scan _ _ _ _) as [st0|] eqn:Hscan; [|done].
  apply scan_record_all in Hscan as ->. cbn [mbind option_bind] in *.
  destruct (record_all _) as [wt ord]. cbn [fst snd] in *.
  destruct (fill_tables _ _ _ _ _ _ _ (resize _ 0 w0)) as [[pats wts]|] eqn:Hfill;
    [|done].
  cbn [mbind option_bind] in Hinit.
  erewrite fill_tables_overwrites; [exact Hinit| | | |exact Hfill].
  - rewrite length_replicate. lia.
  - rewrite length_resize. lia.
  - rewrite length_resize. lia.
Qed.

Lemma init_ignores_old_weights_witness :
  init 2 example_options 2 DX DY example_exemplar [5; 6; 7] = Some example_tables.
Proof.
  apply (init_ignores_old_weights 2 example_options 2 DX DY example_exemplar []).
  - vm_compute. reflexivity.
  - vm_compute. reflexivity.
Defined.

(** ** [agrees] and the propagator *)

(** X10.  Agreement is symmetric under negation of the offset: [p2] may
    sit at offset [(dx, dy)] of [p1] exactly when [p1] may sit at offset
    [(-dx, -dy)] of [p2]. *)
Theorem agrees_negated_offset (N : Z) (p1 p2 : list Z) (dx dy : Z) :
  0 ≤ N < 2 ^ 32 → - N ≤ dx ≤ N → - N ≤ dy ≤ N →
  agrees N p1 p2 dx dy = agrees N p2 p1 (- dx) (- dy).
Proof. apply agrees_opposite. Qed.

Lemma agrees_negated_offset_witness :
  agrees 2 [0; 1; 0; 1] [0; 0; 0; 0] (-1) 0
  = agrees 2 [0; 0; 0; 0] [0; 1; 0; 1] (- -1) (- 0).
Proof.
  apply (agrees_negated_offset 2 [0; 1; 0; 1] [0; 0; 0; 0] (-1) 0); lia.
Defined.

(** X11.  At the zero offset the overlap is the whole window: two patterns
    of [N * N] entries agree there exactly when they are equal. *)
Theorem agrees_zero_offset (N : Z) (p1 p2 : list Z) :
  0 < N < 2 ^ 32 →
  length p1 = Z.to_nat (N * N) → length p2 = Z.to_nat (N * N) →
  agrees N p1 p2 0 0 = true ↔ p1 = p2.
Proof.
  intros HN Hl1 Hl2.
  rewrite (agrees_overlap_lengths N p1 p2 0 0) by (done || lia).
  unfold overlap_matches. split.
  - intros Hall. apply list_eq. intros j.
    destruct (decide (j < Z.to_nat (N * N))%nat) as [Hj|Hj].
    + specialize (Hall (Z.of_nat j mod N) (Z.of_nat j / N)).
      pose proof (Z.mod_pos_bound (Z.of_nat j) N ltac:(lia)).
      pose proof (Z.div_mod (Z.of_nat j) N ltac:(lia)) as Hdm.
      assert (0 ≤ Z.of_nat j / N < N).
      { split; [apply Z.div_pos; lia|]. apply Z.div_lt_upper_bound; nia. }
      rewrite !Z.sub_0_r in Hall.
      replace (Z.of_nat j mod N + N * (Z.of_nat j / N)) with (Z.of_nat j)
        in Hall by lia.
      rewrite Nat2Z.id in Hall. apply Hall; lia.
    + rewrite !(proj2 (lookup_ge_None _ _)); [done|lia..].
  - intros -> x y _ _. by rewrite !Z.sub_0_r.
Qed.

Lemma agrees_zero_offset_witness :
  agrees 2 [0; 1; 0; 1] [0; 1; 0; 1] 0 0 = true ↔ [0; 1; 0; 1] = [0; 1; 0; 1].
Proof.
  apply (agrees_zero_offset 2 [0; 1; 0; 1] [0; 1; 0; 1]).
  - lia.
  - reflexivity.
  - reflexivity.
Defined.

(** X12.  At an offset of a whole window in either direction nothing
    overlaps and [agrees] accepts every pair of patterns. *)
Theorem agrees_no_overlap (N : Z) (p1 p2 : list Z) (dx dy : Z) :
  0 ≤ N < 2 ^ 32 → - N ≤ dx ≤ N → - N ≤ dy ≤ N →
  Z.abs dx = N ∨ Z.abs dy = N →
  agrees N p1 p2 dx dy = true.
Proof.
  intros HN Hdx Hdy Habs. apply agrees_region; [done..|].
  intros x y Hx Hy. lia.
Qed.

Lemma agrees_no_overlap_witness :
  agrees 1 [0] [1] (-1) 0 = true.
Proof.
  apply (agrees_no_overlap 1 [0] [1] (-1) 0); [lia|lia|lia|].
  left. reflexivity.
Defined.

Lemma compat_build_propagator_eq N dxs dys pats P (d : nat) p1 :
  (d < 4)%nat → 0 ≤ p1 < P →
  compat (build_propagator N dxs dys pats P) d p1 =
  u32 <$> filter (λ p2, agrees N (nth (Z.to_nat p1) pats [])
                                 (nth (Z.to_nat p2) pats [])
                                 (nth d dxs 0) (nth d dys 0))
                 (seqZ 0 P).
Proof.
  intros Hd Hp1. unfold compat, build_propagator.
  assert (Hrow : ∀ f : nat → list (list Z), nth d (f <$> seq 0 4) [] = f d).
  { intros f. do 4 (destruct d as [|d]; [done|]). lia. }
  rewrite Hrow.
  erewrite nth_lookup_Some; last first.
  { rewrite list_lookup_fmap, lookup_seqZ_lt by lia. simpl. reflexivity. }
  by rewrite Z.add_0_l, Z2Nat.id by lia.
Qed.

(** X13.  The shape of the propagator that [init] builds: four rows, one
    for each direction, of [P] lists each; a list names no pattern twice
    and only patterns of the table. *)
Theorem init_propagator_shape (fuel : nat) (opts : OverlappingWFCOptions)
    (N : Z) (dxs dys data w0 : list Z) (t : tables) :
  init fuel opts N dxs dys data w0 = Some t →
  P t ≤ 2 ^ 32 →
  length (propagator t) = 4%nat ∧
  (∀ row, row ∈ propagator t → length row = Z.to_nat (P t)) ∧
  (∀ (d : nat) p1, (d < 4)%nat → 0 ≤ p1 < P t →
     NoDup (compat (propagator t) d p1) ∧
     ∀ p2, p2 ∈ compat (propagator t) d p1 → 0 ≤ p2 < P t).
Proof.
  intros Hinit HP.
  destruct (init_unfold _ _ _ _ _ _ _ _ Hinit) as (_ & HPt & _ & ->).
  split_and!.
  - unfold build_propagator. by rewrite length_fmap.
  - unfold build_propagator. intros row (d & -> & _)%list_elem_of_fmap.
    by rewrite length_fmap, length_seqZ.
  - intros d p1 Hd Hp1. split.
    + rewrite compat_build_propagator_eq by done.
      apply NoDup_fmap_2_strong.
      * intros a b [_ Ha%elem_of_seqZ]%list_elem_of_filter
                   [_ Hb%elem_of_seqZ]%list_elem_of_filter.
        rewrite !u32_small by lia. done.
      * apply NoDup_filter, NoDup_seqZ.
    + intros p2 Hp2. apply compat_build_propagator in Hp2; [tauto|done|lia|done].
Qed.

Lemma init_propagator_shape_witness :
  length (propagator example_tables) = 4%nat ∧
  (∀ row, row ∈ propagator example_tables →
     length row = Z.to_nat (P example_tables)) ∧
  (∀ (d : nat) p1, (d < 4)%nat → 0 ≤ p1 < P example_tables →
     NoDup (compat (propagator example_tables) d p1) ∧
     ∀ p2, p2 ∈ compat (propagator example_tables) d p1 →
           0 ≤ p2 < P example_tables).
Proof.
  apply (init_propagator_shape 2 example_options 2 DX DY example_exemplar []).
  - vm_compute. reflexivity.
  - simpl. lia.
Defined.

(** ** [clear]: the ground bans *)

(** X14.  The bans that [clear] issues for the ground, whatever [ban]
    does: for a table of [P ≥ 1] patterns and a wave of [MX × MY] cells,
    the pair of cell [(x, y)] and pattern [p] is banned exactly when
    either the cell is on the bottom row and [p] is not the last pattern,
    or the cell is on another row and [p] is the last pattern. *)
Theorem clear_ground_bans {wave_state : Type}
    (ban : wave_state → Z → Z → wave_state) (MX MY P : Z) (s : wave_state) :
  0 < P < 2 ^ 64 → 0 < MY → 0 ≤ MX → MX * MY < 2 ^ 64 →
  ground_bans ban MX MY P s
  = foldl (λ s cp, ban s cp.1 cp.2) s (ground_ban_list MX MY P) ∧
  ∀ cell p,
    (cell, p) ∈ ground_ban_list MX MY P ↔
    ∃ x y, 0 ≤ x < MX ∧ 0 ≤ y < MY ∧ cell = x + y * MX ∧
           0 ≤ p < P ∧ (y = MY - 1 ↔ p ≠ P - 1).
Proof.
  intros HP HMY HMX Hfit. split; [by apply ground_bans_list|].
  intros cell p. rewrite elem_of_ground_ban_list. split.
  - intros (x & Hx & [[-> Hp]|[-> (y & Hy & ->)]]).
    + exists x, (MY - 1). split_and!; try lia.
    + exists x, y. split_and!; try lia.
  - intros (x & y & Hx & Hy & -> & Hp & Hiff). exists x. split; [done|].
    destruct (decide (y = MY - 1)) as [->|Hne].
    + left. split; [done|]. destruct Hiff as [Hiff _]. specialize (Hiff eq_refl). lia.
    + right. split; [|exists y; split; [lia|done]].
      destruct (decide (p = P - 1)); [done|]. destruct Hne. by apply Hiff.
Qed.

Lemma clear_ground_bans_witness :
  ground_bans example_ban 2 3 3 []
  = foldl (λ s cp, example_ban s cp.1 cp.2) [] (ground_ban_list 2 3 3) ∧
  ∀ cell p,
    (cell, p) ∈ ground_ban_list 2 3 3 ↔
    ∃ x y, 0 ≤ x < 2 ∧ 0 ≤ y < 3 ∧ cell = x + y * 2 ∧
           0 ≤ p < 3 ∧ (y = 3 - 1 ↔ p ≠ 3 - 1).
Proof.
  apply (clear_ground_bans example_ban 2 3 3 []); lia.
Defined.

(** ** [get_output]: the grid and the diagnostic *)

(** X15.  [get_output] writes its diagnostic exactly when the cell read
    for some pixel has no pattern left; otherwise it writes nothing. *)
Theorem get_output_diagnostic (wave_get : Z → Z → bool) (t : tables)
    (N MX MY : Z) (cerr : list string)
    (o : gmap (Z * Z) (Z * Z * Z)) (log : list string) :
  0 ≤ P t →
  get_output wave_get t N MX MY cerr = Some (o, log) →
  (log = cerr ++ ["get_output() called on contradicted wfc(overlap)"%string] ↔
   ∃ x y, 0 ≤ x < MX ∧ 0 ≤ y < MY ∧
     cell_empty wave_get t
       (decoder_cell MX x y (decoder_offset N MX x) (decoder_offset N MY y))) ∧
  (log ≠ cerr ++ ["get_output() called on contradicted wfc(overlap)"%string] →
   log = cerr).
Proof.
  intros HP Hrun.
  apply get_output_spec in Hrun as (_ & _ & Hsus & Hquiet).
  assert (Hdec : ∀ x y,
    first_possible (wave_get (decoder_cell MX x y (decoder_offset N MX x)
                                (decoder_offset N MY y))) (Z.to_nat (P t)) 0 < 0
    ↔ cell_empty wave_get t
        (decoder_cell MX x y (decoder_offset N MX x) (decoder_offset N MY y))).
  { intros x y. by apply first_possible_empty. }
  destruct (decide (Exists (λ xy : Z * Z,
      first_possible (wave_get (decoder_cell MX xy.1 xy.2
        (decoder_offset N MX xy.1) (decoder_offset N MY xy.2)))
        (Z.to_nat (P t)) 0 < 0)
      (x ← seqZ 0 MX; y ← seqZ 0 MY; [(x, y)]))) as [Hex|Hnex].
  - apply Exists_exists in Hex as ([x y] & Hin & He). simpl in He.
    apply list_elem_of_bind in Hin as (x' & Hin & Hx%elem_of_seqZ).
    apply list_elem_of_bind in Hin as (y' & Hin & Hy%elem_of_seqZ).
    apply list_elem_of_singleton in Hin as [= <- <-].
    assert (Hlog : log = cerr ++
      ["get_output() called on contradicted wfc(overlap)"%string]).
    { apply Hsus. exists x, y. split_and!; [lia..|done]. }
    split; [|done]. split; [|done]. intros _.
    exists x, y. split_and!; [lia..|]. by apply Hdec.
  - assert (Hlog : log = cerr).
    { apply Hquiet. intros x y Hx Hy He. apply Hnex, Exists_exists.
      exists (x, y). split; [|done].
      apply list_elem_of_bind. exists x. split; [|apply elem_of_seqZ; lia].
      apply list_elem_of_bind. exists y. split; [|apply elem_of_seqZ; lia].
      by left. }
    split; [|done]. split.
    + intros Heq. rewrite Hlog in Heq.
      apply (f_equal length) in Heq. rewrite length_app in Heq. simpl in Heq. lia.
    + intros (x & y & Hx & Hy & He). exfalso. apply Hnex, Exists_exists.
      exists (x, y). split; [|by apply Hdec].
      apply list_elem_of_bind. exists x. split; [|apply elem_of_seqZ; lia].
      apply list_elem_of_bind. exists y. split; [|apply elem_of_seqZ; lia].
      by left.
Qed.

Lemma get_output_diagnostic_witness :
  ∃ o log, get_output (λ _ _, true) nine_tables 3 5 5 [] = Some (o, log) ∧
    (log ≠ ["get_output() called on contradicted wfc(overlap)"%string] →
     log = []).
Proof.
  destruct (get_output (λ _ _, true) nine_tables 3 5 5 []) as [[o log]|] eqn:Hrun.
  - exists o, log. split; [reflexivity|].
    apply (get_output_diagnostic (λ _ _, true) nine_tables 3 5 5 [] o log);
      [simpl; lia|exact Hrun].
  - vm_compute in Hrun. discriminate Hrun.
Defined.

(** X16.  The grid that [get_output] returns has a colour for the pixels
    [0 ≤ x < MX], [0 ≤ y < MY] and for nothing else. *)
Theorem get_output_domain (wave_get : Z → Z → bool) (t : tables)
    (N MX MY : Z) (cerr : list string)
    (o : gmap (Z * Z) (Z * Z * Z)) (log : list string) (x y : Z) :
  get_output wave_get t N MX MY cerr = Some (o, log) →
  is_Some (o !! (x, y)) ↔ 0 ≤ x < MX ∧ 0 ≤ y < MY.
Proof.
  intros Hrun. apply get_output_spec in Hrun as (Hin & Hout & _).
  split.
  - intros Hs. destruct (decide (0 ≤ x < MX ∧ 0 ≤ y < MY)) as [|Hno]; [done|].
    rewrite (Hout (x, y)) in Hs by done. by destruct Hs.
  - intros [Hx Hy]. destruct (Hin x y Hx Hy) as [Hs ->]. done.
Qed.

Lemma get_output_domain_witness :
  ∃ o log, get_output (λ _ _, true) nine_tables 3 5 5 [] = Some (o, log) ∧
    (is_Some (o !! (5, 0)) ↔ 0 ≤ 5 < 5 ∧ 0 ≤ 0 < 5).
Proof.
  destruct (get_output (λ _ _, true) nine_tables 3 5 5 []) as [[o log]|] eqn:Hrun.
  - exists o, log. split; [reflexivity|].
    apply (get_output_domain (λ _ _, true) nine_tables 3 5 5 [] o log 5 0 Hrun).
  - vm_compute in Hrun. discriminate Hrun.
Defined.

(** X17.  For an output at least [2N - 2] pixels wide and high, the cell
    that the decoder reads for a pixel is a cell of the wave of
    [(MX - N + 1) × (MY - N + 1)] cells, the offset into its pattern is
    inside the window, cell plus offset is the pixel, and the cell index
    is computed without wrap-around. *)
Theorem decoder_cell_in_wave (N MX MY x y : Z) :
  0 < N → 2 * N - 2 ≤ MX → 2 * N - 2 ≤ MY → MX * MY < 2 ^ 64 →
  0 ≤ x < MX → 0 ≤ y < MY →
  let dx := decoder_offset N MX x in
  let dy := decoder_offset N MY y in
  0 ≤ dx < N ∧ 0 ≤ dy < N ∧
  0 ≤ x - dx < MX - N + 1 ∧ 0 ≤ y - dy < MY - N + 1 ∧
  decoder_cell MX x y dx dy = (x - dx) + (y - dy) * MX ∧
  0 ≤ decoder_cell MX x y dx dy < MX * MY.
Proof.
  intros HN HMX HMY Hfit Hx Hy dx dy.
  assert (MX < 2 ^ 64 ∧ MY < 2 ^ 64) as [? ?] by nia.
  assert (Hdx : dx = if decide (x < MX - N + 1) then 0 else N - 1).
  { subst dx. apply decoder_offset_wave; lia. }
  assert (Hdy : dy = if decide (y < MY - N + 1) then 0 else N - 1).
  { subst dy. apply decoder_offset_wave; lia. }
  assert (0 ≤ dx < N ∧ 0 ≤ x - dx < MX - N + 1) as [? ?].
  { rewrite Hdx. destruct (decide (x < MX - N + 1)); lia. }
  assert (0 ≤ dy < N ∧ 0 ≤ y - dy < MY - N + 1) as [? ?].
  { rewrite Hdy. destruct (decide (y < MY - N + 1)); lia. }
  assert (Hcell : decoder_cell MX x y dx dy = (x - dx) + (y - dy) * MX).
  { rewrite decoder_cell_wrap. apply wrap_small. nia. }
  split_and!; try done; try lia; rewrite Hcell; nia.
Qed.

Lemma decoder_cell_in_wave_witness :
  0 ≤ decoder_offset 3 5 4 < 3 ∧ 0 ≤ decoder_offset 3 5 1 < 3 ∧
  0 ≤ 4 - decoder_offset 3 5 4 < 5 - 3 + 1 ∧
  0 ≤ 1 - decoder_offset 3 5 1 < 5 - 3 + 1 ∧
  decoder_cell 5 4 1 (decoder_offset 3 5 4) (decoder_offset 3 5 1)
  = (4 - decoder_offset 3 5 4) + (1 - decoder_offset 3 5 1) * 5 ∧
  0 ≤ decoder_cell 5 4 1 (decoder_offset 3 5 4) (decoder_offset 3 5 1) < 5 * 5.
Proof.
  apply (decoder_cell_in_wave 3 5 5 4 1); lia.
Defined.

(** X18.  The three channels pack back into the colour: for a 24-bit
    colour, [rgb] gives three bytes [(r, g, b)] with
    [r * 65536 + g * 256 + b] the colour. *)
Theorem rgb_packs (color : Z) :
  0 ≤ color < 2 ^ 24 →
  let '(r, g, b) := rgb color in
  0 ≤ r < 256 ∧ 0 ≤ g < 256 ∧ 0 ≤ b < 256 ∧
  r * 65536 + g * 256 + b = color.
Proof.
  intros Hc. rewrite rgb_bytes.
  change (2 ^ 8) with 256. change (2 ^ 16) with 65536.
  change (2 ^ 24) with 16777216 in Hc.
  pose proof (Z.mod_pos_bound color 256 ltac:(lia)).
  pose proof (Z.mod_pos_bound (color / 256) 256 ltac:(lia)).
  pose proof (Z.div_mod color 256 ltac:(lia)).
  pose proof (Z.div_mod (color / 256) 256 ltac:(lia)).
  assert (Hdd : color / 65536 = color / 256 / 256).
  { rewrite Z.div_div by lia. done. }
  assert (0 ≤ color / 65536 < 256).
  { split; [apply Z.div_pos; lia|]. apply Z.div_lt_upper_bound; lia. }
  rewrite (Z.mod_small (color / 65536)) by lia.
  split_and!; lia.
Qed.

Lemma rgb_packs_witness :
  let '(r, g, b) := rgb 528408 in
  0 ≤ r < 256 ∧ 0 ≤ g < 256 ∧ 0 ≤ b < 256 ∧
  r * 65536 + g * 256 + b = 528408.
Proof. apply (rgb_packs 528408). lia. Defined.

(** X19.  The decoder shows the first pattern that is still possible:
    when some pattern [q] is possible at a cell, the pattern observed is
    possible, is at most [q], and no pattern before it is possible. *)
Theorem observed_first_possible (wave_get : Z → Z → bool) (t : tables)
    (cell q : Z) :
  0 ≤ q < P t → wave_get cell q = true →
  wave_get cell (observed wave_get t cell) = true ∧
  0 ≤ observed wave_get t cell ≤ q ∧
  ∀ p, 0 ≤ p < observed wave_get t cell → wave_get cell p = false.
Proof.
  intros Hq Hget. unfold observed.
  destruct (first_possible_spec (wave_get cell) (Z.to_nat (P t)) 0)
    as [[Hf Hall]|(Hr & Hg & Hall)]; [done| |].
  - rewrite Hall in Hget by lia. done.
  - rewrite decide_False by lia. split_and!; [done|lia| |done].
    destruct (decide (first_possible (wave_get cell) (Z.to_nat (P t)) 0 ≤ q));
      [done|].
    rewrite Hall in Hget by lia. done.
Qed.

Lemma observed_first_possible_witness :
  (λ _ p, bool_decide (1 ≤ p)) 0
    (observed (λ _ p, bool_decide (1 ≤ p)) example_tables 0) = true ∧
  0 ≤ observed (λ _ p, bool_decide (1 ≤ p)) example_tables 0 ≤ 1 ∧
  ∀ p, 0 ≤ p < observed (λ _ p, bool_decide (1 ≤ p)) example_tables 0 →
       (λ _ p, bool_decide (1 ≤ p)) 0 p = false.
Proof.
  apply (observed_first_possible (λ _ p, bool_decide (1 ≤ p)) example_tables 0 1).
  - simpl. lia.
  - reflexivity.
Defined.

(** ** The size of the wave *)

(** X20.  [get_wave_width] for an output that is not periodic: the output
    width less [pattern_size - 1] when the pattern fits, and nothing
    stops a narrower output, for which the unsigned subtraction wraps to a
    width of almost [2^32] cells. *)
Theorem get_wave_width_not_periodic (opts : OverlappingWFCOptions) :
  periodic_output opts = false →
  0 < pattern_size opts < 2 ^ 32 → 0 ≤ o_W opts < 2 ^ 32 →
  (pattern_size opts - 1 ≤ o_W opts →
     get_wave_width opts = o_W opts - pattern_size opts + 1) ∧
  (o_W opts < pattern_size opts - 1 →
     get_wave_width opts = 2 ^ 32 + o_W opts - pattern_size opts + 1).
Proof.
  intros Hper HN HW. unfold get_wave_width. rewrite Hper.
  assert (2 ^ 64 = 2 ^ 32 * 2 ^ 32) as H64 by done.
  assert (0 < 2 ^ 32) by done.
  split; intros Hcmp.
  - rewrite wrap_small by lia. apply Z.mod_small. lia.
  - unfold Size.wrap, Size.modulus.
    set (v := o_W opts - pattern_size opts + 1).
    assert (Hv : v mod 2 ^ 64 = v + 2 ^ 64).
    { symmetry. apply (Z.mod_unique _ _ (-1)); subst v; lia. }
    rewrite Hv. symmetry.
    apply (Z.mod_unique _ _ (2 ^ 32 - 1)); subst v; lia.
Qed.

Lemma get_wave_width_not_periodic_witness :
  (pattern_size small_options - 1 ≤ o_W small_options →
     get_wave_width small_options
     = o_W small_options - pattern_size small_options + 1) ∧
  (o_W small_options < pattern_size small_options - 1 →
     get_wave_width small_options
     = 2 ^ 32 + o_W small_options - pattern_size small_options + 1).
Proof.
  apply (get_wave_width_not_periodic small_options).
  - reflexivity.
  - simpl. lia.
  - simpl. lia.
Defined.

(** ** [patternFromIndex]: when it returns *)

Lemma patternFromIndex_loop_total fuel C n : ∀ i residue power result,
  0 < C → power = C ^ Z.of_nat n → power < 2 ^ 64 → 0 ≤ residue < power →
  C ≤ Z.of_nat fuel →
  is_Some (patternFromIndex_loop fuel C n i residue power result).
Proof.
  induction n as [|n IH]; intros i residue power result HC Hpow Hfit Hres Hfuel;
    [by eexists|].
  cbn [patternFromIndex_loop]. rewrite decide_False by lia.
  assert (Hsucc : power = C * C ^ Z.of_nat n).
  { subst power. replace (Z.of_nat (S n)) with (Z.succ (Z.of_nat n)) by lia.
    by rewrite Z.pow_succ_r by lia. }
  assert (Hpn : 0 < C ^ Z.of_nat n) by (apply Z.pow_pos_nonneg; lia).
  assert (Hdiv : power / C = C ^ Z.of_nat n).
  { rewrite Hsucc, Z.mul_comm, Z.div_mul by lia. done. }
  rewrite Hdiv.
  assert (Hq : 0 ≤ residue / C ^ Z.of_nat n < C).
  { split; [apply Z.div_pos; lia|]. apply Z.div_lt_upper_bound; lia. }
  assert (HCp : C ≤ power) by nia.
  rewrite count_loop_spec by lia. rewrite decide_True by lia.
  pose proof (Z.mod_pos_bound residue (C ^ Z.of_nat n) Hpn) as Hmod.
  apply IH; (done || lia).
Qed.

(** X21.  [patternFromIndex] returns on every index in range: when
    [C^(N*N)] fits in a [size_t] and [0 ≤ ind < C^(N*N)], its inner loop
    ends within [C] tests of its condition for each entry. *)
Theorem patternFromIndex_returns (fuel : nat) (N C ind : Z) (result : list Z) :
  0 < C → C ^ (N * N) < 2 ^ 64 → 0 ≤ ind < C ^ (N * N) →
  length result = Z.to_nat (N * N) →
  C ≤ Z.of_nat fuel →
  is_Some (patternFromIndex fuel C (compute_W N C) ind result).
Proof.
  intros HC Hfit Hind Hlen Hfuel. unfold patternFromIndex.
  assert (HNN : Z.of_nat (Z.to_nat (N * N)) = N * N) by nia.
  rewrite compute_W_spec, HNN, wrap_small by lia.
  apply patternFromIndex_loop_total; try done; try lia.
  by rewrite Hlen, HNN.
Qed.

Lemma patternFromIndex_returns_witness :
  is_Some (patternFromIndex 3 3 (compute_W 2 3) 80 [0; 0; 0; 0]).
Proof.
  apply (patternFromIndex_returns 3 2 3 80 [0; 0; 0; 0]).
  - lia.
  - reflexivity.
  - lia.
  - reflexivity.
  - lia.
Defined.

(** X22.  [patternFromIndex] has no result from too small a power: with
    an empty palette it divides by zero, and from a starting power below
    [C^n] for the [n] entries to write, some division leaves [power] at
    zero and the inner loop never ends, whatever the fuel. *)
Theorem patternFromIndex_no_result (fuel : nat) (C W ind : Z) (result : list Z) :
  0 ≤ C → 0 ≤ ind → 0 ≤ W → result ≠ [] →
  C = 0 ∨ W < C ^ Z.of_nat (length result) →
  patternFromIndex fuel C W ind result = None.
Proof.
  intros HC Hind HW Hne Hsmall. unfold patternFromIndex.
  destruct (patternFromIndex_loop fuel C (length result) 0 ind W result)
    as [r|] eqn:Hrun; [|done].
  exfalso.
  apply patternFromIndex_loop_power in Hrun as [Hz|[HCpos Hle]]; try done.
  - apply length_zero_iff_nil in Hz. done.
  - destruct Hsmall; lia.
Qed.

Lemma patternFromIndex_no_result_witness :
  patternFromIndex 1000 16 (compute_W 4 16) 5 (replicate 16 0) = None.
Proof.
  apply (patternFromIndex_no_result 1000 16 (compute_W 4 16) 5 (replicate 16 0)).
  - lia.
  - lia.
  - by vm_compute.
  - discriminate.
  - right. by vm_compute.
Defined.
